(** * Shallow embedding of calmjs.parse's name obfuscator

    Source: [src/calmjs/parse/obfuscator.py].  The embedding follows the
    three classes of that module: [NameGenerator], [Scope] and
    [Obfuscator].  Python strings are [String.string]; a Python [dict] is
    an association list kept in insertion order (the order in which the
    code iterates it); a Python [set] is a list used through membership
    only; the [Scope] objects, which the code shares between the scope
    tree, the traversal stack and the [identifiers] table, live in an
    explicit store indexed by scope id. *)

From Stdlib Require Import String Ascii List Arith Lia Bool.
From Stdlib Require Import Sorting.Sorted.
Import ListNotations.
Local Open Scope list_scope.

(* ------------------------------------------------------------------ *)
(** ** NameGenerator *)

(** [ID_CHARS] *)
Definition ID_CHARS : list ascii :=
  list_ascii_of_string
    "abcdefghijklmnopqrstuvwxyzABCDEFGHIJKLMNOPQRSTUVWXYZ_".

(** Membership of a string in a Python set of strings. *)
Definition mem (s : string) (l : list string) : bool :=
  existsb (String.eqb s) l.

(** A [NameGenerator] instance: its [skip] set and its [charset]. *)
Record NameGenerator := mkNameGenerator {
  skip : list string;
  charset : list ascii
}.

(** [NameGenerator.__init__(skip, charset)]: [self.skip = set(skip or [])]. *)
Definition NameGenerator_init (skip_ : list string) (charset_ : list ascii)
  : NameGenerator :=
  mkNameGenerator skip_ charset_.

(** [NameGenerator.__call__(skip)]:
    [type(self)(set(skip) | set(self.skip), self.charset)]. *)
Definition NameGenerator_call (ng : NameGenerator) (skip_ : list string)
  : NameGenerator :=
  mkNameGenerator (skip_ ++ skip ng) (charset ng).

(** [itertools.product(charset, repeat=n)], each tuple joined into a
    string: the first position is the outermost loop. *)
Fixpoint product (cs : list ascii) (n : nat) : list string :=
  match n with
  | 0 => [EmptyString]
  | S m => flat_map (fun c => map (String c) (product cs m)) cs
  end.

(** The body of [__iter__] for one length [n]: the candidates of
    length [n], without those in [self.skip]. *)
Definition yield_len (ng : NameGenerator) (n : nat) : list string :=
  filter (fun s => negb (mem s (skip ng))) (product (charset ng) n).

(** [__iter__] run for [n] in [count(1)] up to length [N]: every value
    the generator yields before it starts on the names of length [N+1]. *)
Definition iter_upto (ng : NameGenerator) (N : nat) : list string :=
  filter (fun s => negb (mem s (skip ng)))
         (flat_map (product (charset ng)) (seq 1 N)).

(** Draws [k] values from the generator [ng], lazily: the names of
    length [n] are produced, and the next length is only started when
    more values are needed.  [fuel] bounds the number of lengths tried. *)
Fixpoint gen_from (ng : NameGenerator) (k n fuel : nat) : list string :=
  match fuel with
  | 0 => []
  | S f =>
      let here := yield_len ng n in
      if k <=? length here then firstn k here
      else here ++ gen_from ng (k - length here) (S n) f
  end.

(** [k] successive calls of [next] on a fresh [iter(ng)].  At most
    [length (skip ng)] candidates are skipped, so [k + length (skip ng)]
    lengths are always enough (see [NameGenerator_enumeration]). *)
Definition take_names (ng : NameGenerator) (k : nat) : list string :=
  gen_from ng k 1 (k + length (skip ng)).

(** The order the spec describes, stated from its words: by length
    first, then lexicographically with the alphabet's order on
    characters. *)
Fixpoint index_of (cs : list ascii) (c : ascii) : nat :=
  match cs with
  | [] => 0
  | d :: cs' => if Ascii.eqb c d then 0 else S (index_of cs' c)
  end.

Fixpoint lex_lt (cs : list ascii) (s t : string) : Prop :=
  match s, t with
  | String a s', String b t' =>
      index_of cs a < index_of cs b \/ (a = b /\ lex_lt cs s' t')
  | _, _ => False
  end.

Definition shortlex_lt (cs : list ascii) (s t : string) : Prop :=
  String.length s < String.length t \/
  (String.length s = String.length t /\ lex_lt cs s t).

(** A string written over the alphabet [cs]. *)
Fixpoint over (cs : list ascii) (s : string) : Prop :=
  match s with
  | EmptyString => True
  | String c s' => In c cs /\ over cs s'
  end.

(* ------------------------------------------------------------------ *)
(** ** Python dicts and sets *)

(** [d.get(k)] on a dict kept as an association list. *)
Fixpoint dict_get {K V} (eqb : K -> K -> bool) (d : list (K * V)) (k : K)
  : option V :=
  match d with
  | [] => None
  | (k', v) :: d' => if eqb k k' then Some v else dict_get eqb d' k
  end.

(** [d.get(k, default)]. *)
Definition dict_get_default {K V} (eqb : K -> K -> bool) (d : list (K * V))
  (k : K) (default : V) : V :=
  match dict_get eqb d k with Some v => v | None => default end.

(** [d[k] = v]: an existing key keeps its position, a new key goes last. *)
Fixpoint dict_set {K V} (eqb : K -> K -> bool) (d : list (K * V)) (k : K) (v : V)
  : list (K * V) :=
  match d with
  | [] => [(k, v)]
  | (k', v') :: d' =>
      if eqb k k' then (k', v) :: d' else (k', v') :: dict_set eqb d' k v
  end.

(** [s.add(x)] on a set of strings. *)
Definition set_add (l : list string) (x : string) : list string :=
  if mem x l then l else l ++ [x].

(** Errors the code raises. *)
Inductive PyError :=
| ValueError (msg : string)
| IndexError (msg : string)
| AttributeError (msg : string).

Definition Result (A : Type) : Type := (PyError + A)%type.

Definition bind {A B} (m : Result A) (k : A -> Result B) : Result B :=
  match m with inl e => inl e | inr a => k a end.

Notation "x <- m ;; k" := (bind m (fun x => k))
  (at level 61, m at next level, right associativity).

(* ------------------------------------------------------------------ *)
(** ** Scope *)

(** A [Scope] object.  [parent] and [children] hold scope ids. *)
Record Scope := mkScope {
  closed : bool;                                  (* self._closed *)
  node : option nat;
  parent : option nat;
  children : list nat;
  referenced_symbols : list (string * nat);
  local_declared_symbols : list string;
  remapped_symbols : list (string * string)
}.

(** [Scope(node, parent)]. *)
Definition Scope_new (node_ : option nat) (parent_ : option nat) : Scope :=
  mkScope false node_ parent_ [] [] [] [].

Definition set_closed (sc : Scope) (b : bool) : Scope :=
  mkScope b (node sc) (parent sc) (children sc) (referenced_symbols sc)
    (local_declared_symbols sc) (remapped_symbols sc).

Definition set_children (sc : Scope) (cs : list nat) : Scope :=
  mkScope (closed sc) (node sc) (parent sc) cs (referenced_symbols sc)
    (local_declared_symbols sc) (remapped_symbols sc).

Definition set_referenced (sc : Scope) (r : list (string * nat)) : Scope :=
  mkScope (closed sc) (node sc) (parent sc) (children sc) r
    (local_declared_symbols sc) (remapped_symbols sc).

Definition set_declared (sc : Scope) (d : list string) : Scope :=
  mkScope (closed sc) (node sc) (parent sc) (children sc)
    (referenced_symbols sc) d (remapped_symbols sc).

Definition set_remapped (sc : Scope) (m : list (string * string)) : Scope :=
  mkScope (closed sc) (node sc) (parent sc) (children sc)
    (referenced_symbols sc) (local_declared_symbols sc) m.

(** All [Scope] objects of one run, the scope with id [i] at position [i]. *)
Definition Store := list Scope.

(** Writing back the (mutated) scope [i]. *)
Fixpoint store_set (s : Store) (i : nat) (x : Scope) : Store :=
  match s, i with
  | [], _ => []
  | _ :: s', 0 => x :: s'
  | y :: s', S i' => y :: store_set s' i' x
  end.

Definition store_update (s : Store) (i : nat) (f : Scope -> Scope) : Store :=
  match nth_error s i with
  | Some sc => store_set s i (f sc)
  | None => s
  end.

(** The property-like walks over parents and children are structural
    in a fuel argument; each parent or child id is a different scope
    of the store, so [length s] is always enough. *)

(** [Scope.declared_symbols]. *)
Fixpoint declared_symbols_fuel (fuel : nat) (s : Store) (i : nat) : list string :=
  match fuel with
  | 0 => []
  | S f =>
      match nth_error s i with
      | None => []
      | Some sc =>
          local_declared_symbols sc ++
          match parent sc with
          | Some p => declared_symbols_fuel f s p
          | None => []
          end
      end
  end.

Definition declared_symbols (s : Store) (i : nat) : list string :=
  declared_symbols_fuel (length s) s i.

(** [Scope.global_symbols]. *)
Definition global_symbols (s : Store) (i : nat) : list string :=
  match nth_error s i with
  | None => []
  | Some sc =>
      let ds := declared_symbols s i in
      filter (fun k => negb (mem k ds)) (map fst (referenced_symbols sc))
  end.

(** [Scope.global_symbols_in_children]. *)
Fixpoint global_symbols_in_children_fuel (fuel : nat) (s : Store) (i : nat)
  : list string :=
  match fuel with
  | 0 => []
  | S f =>
      match nth_error s i with
      | None => []
      | Some sc =>
          flat_map (fun c => global_symbols s c ++
                             global_symbols_in_children_fuel f s c)
                   (children sc)
      end
  end.

Definition global_symbols_in_children (s : Store) (i : nat) : list string :=
  global_symbols_in_children_fuel (length s) s i.

(** [Scope.leaked_referenced_symbols]. *)
Definition leaked_referenced_symbols (sc : Scope) : list (string * nat) :=
  filter (fun kv => negb (mem (fst kv) (local_declared_symbols sc)))
         (referenced_symbols sc).

(** [Scope.declare]: no check of [_closed]. *)
Definition Scope_declare (sc : Scope) (symbol : string) : Scope :=
  let sc1 := set_declared sc (set_add (local_declared_symbols sc) symbol) in
  set_referenced sc1
    (dict_set String.eqb (referenced_symbols sc) symbol
       (dict_get_default String.eqb (referenced_symbols sc) symbol 0)).

(** [Scope.reference]: no check of [_closed]. *)
Definition Scope_reference (sc : Scope) (symbol : string) : Scope :=
  set_referenced sc
    (dict_set String.eqb (referenced_symbols sc) symbol
       (dict_get_default String.eqb (referenced_symbols sc) symbol 0 + 1)).

(** One [self.referenced_symbols[k] = self.referenced_symbols.get(k, 0) + v]. *)
Definition add_count (acc : list (string * nat)) (kv : string * nat)
  : list (string * nat) :=
  dict_set String.eqb acc (fst kv)
    (dict_get_default String.eqb acc (fst kv) 0 + snd kv).

(** The loop of [Scope.close] over the children, reading each child in
    the store (a scope is never its own child). *)
Definition merge_children (s : Store) (cs : list nat) (r : list (string * nat))
  : list (string * nat) :=
  fold_left (fun acc c =>
      match nth_error s c with
      | Some ch => fold_left add_count (leaked_referenced_symbols ch) acc
      | None => acc
      end) cs r.

(** [Scope.close]. *)
Definition Scope_close (s : Store) (i : nat) : Result Store :=
  match nth_error s i with
  | None => inl (AttributeError "scope")
  | Some sc =>
      if closed sc then inl (ValueError "scope is already marked as closed")
      else inr (store_set s i
                  (set_closed (set_referenced sc
                     (merge_children s (children sc) (referenced_symbols sc)))
                   true))
  end.

(** [Scope.nest(node)]: the new scope gets the next id. *)
Definition Scope_nest (s : Store) (i : nat) (node_ : nat) : Store * nat :=
  let j := length s in
  (store_update s i (fun sc => set_children sc (children sc ++ [j]))
     ++ [Scope_new (Some node_) (Some i)], j).

(** [sorted(items, key=itemgetter(1))]: a stable sort by count, by
    insertion (an item goes after every item of smaller or equal count). *)
Fixpoint insert_by_count (p : string * nat) (l : list (string * nat))
  : list (string * nat) :=
  match l with
  | [] => [p]
  | q :: l' => if snd p <? snd q then p :: l else q :: insert_by_count p l'
  end.

Definition sort_by_count (l : list (string * nat)) : list (string * nat) :=
  fold_left (fun acc p => insert_by_count p acc) l [].

(** The [skip] argument given to [name_generator] in
    [Scope.build_remap_symbols]. *)
Definition remap_skip (s : Store) (i : nat) (sc : Scope) : list string :=
  let parent_remapped_symbols :=
    match parent sc with
    | Some p => match nth_error s p with
                | Some ps => remapped_symbols ps
                | None => []
                end
    | None => []
    end in
  global_symbols_in_children s i ++
  map snd (filter (fun kv => mem (fst kv) (map fst (referenced_symbols sc)) &&
                             negb (mem (fst kv) (local_declared_symbols sc)))
                  parent_remapped_symbols) ++
  global_symbols s i.

(** The symbols that receive a name, in the order of the loop over
    [reversed(sorted(...))] after the [continue] on undeclared ones. *)
Definition remap_order (sc : Scope) : list string :=
  map fst (filter (fun kv => mem (fst kv) (local_declared_symbols sc))
                  (rev (sort_by_count (referenced_symbols sc)))).

(** The assignments [self.remapped_symbols[symbol] = next(replacement)]
    of one scope's remap step, in order. *)
Definition remap_pairs (ng : NameGenerator) (s : Store) (i : nat) (sc : Scope)
  : list (string * string) :=
  let replacement := NameGenerator_call ng (remap_skip s i sc) in
  let order := remap_order sc in
  combine order (take_names replacement (length order)).

(** The body of [if not children_only:] for scope [i]. *)
Definition remap_scope (ng : NameGenerator) (s : Store) (i : nat) (sc : Scope)
  : Store :=
  store_set s i
    (set_remapped sc
       (fold_left (fun d kv => dict_set String.eqb d (fst kv) (snd kv))
                  (remap_pairs ng s i sc) (remapped_symbols sc))).

(** [Scope.build_remap_symbols(name_generator, children_only)]. *)
Fixpoint build_remap_symbols_fuel (fuel : nat) (ng : NameGenerator) (s : Store)
  (i : nat) (children_only : bool) : Store :=
  match fuel with
  | 0 => s
  | S f =>
      match nth_error s i with
      | None => s
      | Some sc =>
          let s1 := if children_only then s else remap_scope ng s i sc in
          fold_left (fun st c => build_remap_symbols_fuel f ng st c false)
                    (children sc) s1
      end
  end.

Definition build_remap_symbols (ng : NameGenerator) (s : Store) (i : nat)
  (children_only : bool) : Store :=
  build_remap_symbols_fuel (length s) ng s i children_only.

(** The [while result is None and scope] loop of [Scope.resolve]. *)
Fixpoint resolve_loop (fuel : nat) (s : Store) (scope : option nat)
  (symbol : string) : option string :=
  match fuel with
  | 0 => None
  | S f =>
      match scope with
      | None => None
      | Some j =>
          match nth_error s j with
          | None => None
          | Some sc =>
              match dict_get String.eqb (remapped_symbols sc) symbol with
              | Some v => Some v
              | None => resolve_loop f s (parent sc) symbol
              end
          end
      end
  end.

(** [Scope.resolve]: [return result or symbol]. *)
Definition Scope_resolve (s : Store) (i : nat) (symbol : string) : string :=
  match resolve_loop (length s) s (Some i) symbol with
  | Some v => if String.eqb v EmptyString then symbol else v
  | None => symbol
  end.

(* ------------------------------------------------------------------ *)
(** ** Obfuscator *)

(** An [Identifier] node: its identity and its [value]. *)
Record Occurrence := mkOccurrence {
  occ_id : nat;
  value : string
}.

(** An [Obfuscator] instance.  [identifiers] maps an identifier node (by
    identity) to a scope id, [scopes] a scope node to a scope id; the
    [stack] lists scope ids with the top ([self.stack[-1]]) first. *)
Record Obfuscator := mkObfuscator {
  identifiers : list (nat * nat);
  scopes : list (nat * nat);
  stack : list nat;
  store : Store;
  obfuscate_globals : bool;
  reserved_keywords : list string
}.

(** [self.global_scope] has id 0. *)
Definition global_scope : nat := 0.

(** [Obfuscator.__init__]. *)
Definition Obfuscator_init (obfuscate_globals_ : bool)
  (reserved_keywords_ : list string) : Obfuscator :=
  mkObfuscator [] [] [global_scope] [Scope_new None None]
    obfuscate_globals_ reserved_keywords_.

Definition set_state (o : Obfuscator) (ids : list (nat * nat))
  (scs : list (nat * nat)) (st : list nat) (s : Store) : Obfuscator :=
  mkObfuscator ids scs st s (obfuscate_globals o) (reserved_keywords o).

(** [Obfuscator.current_scope]: [self.stack[-1]]. *)
Definition current_scope (o : Obfuscator) : Result nat :=
  match stack o with
  | [] => inl (IndexError "list index out of range")
  | i :: _ => inr i
  end.

(** [Obfuscator.push_scope]. *)
Definition push_scope (o : Obfuscator) (node_ : nat) : Result Obfuscator :=
  cur <- current_scope o ;;
  let (s', j) := Scope_nest (store o) cur node_ in
  inr (set_state o (identifiers o) (dict_set Nat.eqb (scopes o) node_ j)
                 (j :: stack o) s').

(** [Obfuscator.pop_scope]: [node] is not used. *)
Definition pop_scope (o : Obfuscator) (node_ : nat) : Result Obfuscator :=
  match stack o with
  | [] => inl (IndexError "pop from empty list")
  | i :: rest =>
      s' <- Scope_close (store o) i ;;
      inr (set_state o (identifiers o) (scopes o) rest s')
  end.

(** [Obfuscator.declare]. *)
Definition declare (o : Obfuscator) (n : Occurrence) : Result Obfuscator :=
  cur <- current_scope o ;;
  inr (set_state o (identifiers o) (scopes o) (stack o)
         (store_update (store o) cur (fun sc => Scope_declare sc (value n)))).

(** [Obfuscator.reference]. *)
Definition reference (o : Obfuscator) (n : Occurrence) : Result Obfuscator :=
  cur <- current_scope o ;;
  inr (set_state o (dict_set Nat.eqb (identifiers o) (occ_id n) cur)
         (scopes o) (stack o)
         (store_update (store o) cur (fun sc => Scope_reference sc (value n)))).

(** [Obfuscator.resolve]. *)
Definition resolve (o : Obfuscator) (n : Occurrence) : string :=
  match dict_get Nat.eqb (identifiers o) (occ_id n) with
  | None => value n
  | Some i => Scope_resolve (store o) i (value n)
  end.

(** [Obfuscator.finalize]. *)
Definition finalize (o : Obfuscator) : Result Obfuscator :=
  s' <- Scope_close (store o) global_scope ;;
  let name_generator := NameGenerator_init (reserved_keywords o) ID_CHARS in
  inr (set_state o (identifiers o) (scopes o) (stack o)
         (build_remap_symbols name_generator s' global_scope
            (negb (obfuscate_globals o)))).

(** The four events the walk dispatches to the obfuscator: [PushScope]
    and [PopScope] layouts, [Declare] and [Resolve] deferrables. *)
Inductive Event :=
| PushScope (node_ : nat)
| PopScope (node_ : nat)
| Declare (n : Occurrence)
| Resolve (n : Occurrence).

Definition handle (o : Obfuscator) (e : Event) : Result Obfuscator :=
  match e with
  | PushScope nd => push_scope o nd
  | PopScope nd => pop_scope o nd
  | Declare n => declare o n
  | Resolve n => reference o n
  end.

(** [Obfuscator.walk]: the events of the walk, in document order. *)
Fixpoint walk (o : Obfuscator) (evs : list Event) : Result Obfuscator :=
  match evs with
  | [] => inr o
  | e :: evs' => o' <- handle o e ;; walk o' evs'
  end.

(** [Obfuscator.prewalk_hook] on a fresh instance: walk, then finalize. *)
Definition prewalk_hook (obfuscate_globals_ : bool)
  (reserved_keywords_ : list string) (evs : list Event) : Result Obfuscator :=
  o <- walk (Obfuscator_init obfuscate_globals_ reserved_keywords_) evs ;;
  finalize o.

(** The shape every state reached by [walk] has: the store is never
    empty, the stack holds distinct, open scopes, no remap table is
    filled yet, and the global scope is nobody's child. *)
Definition wf_state (o : Obfuscator) : Prop :=
  1 <= length (store o) /\
  NoDup (stack o) /\
  (forall i, In i (stack o) ->
     exists sc, nth_error (store o) i = Some sc /\ closed sc = false) /\
  (forall j sc, nth_error (store o) j = Some sc ->
     remapped_symbols sc = [] /\ ~ In global_scope (children sc)).

(** Whether an identifier node (by identity) gets a [Resolve] event. *)
Definition referenced_in (evs : list Event) (id : nat) : bool :=
  existsb (fun e => match e with
                    | Resolve m => Nat.eqb (occ_id m) id
                    | _ => false
                    end) evs.

(** The count a (closed) child leaks for [k]: the values of [k] in its
    [leaked_referenced_symbols] (one at most, the keys of a dict being
    distinct). *)
Definition leaked_count (ch : Scope) (k : string) : nat :=
  list_sum (map snd (filter (fun kv => String.eqb (fst kv) k)
                            (leaked_referenced_symbols ch))).

Definition children_leaked_count (s : Store) (cs : list nat) (k : string) : nat :=
  list_sum (map (fun c => match nth_error s c with
                          | Some ch => leaked_count ch k
                          | None => 0
                          end) cs).

(* ------------------------------------------------------------------ *)
(** ** Concrete inputs *)

Definition occ (i : nat) (v : string) : Occurrence := mkOccurrence i v.

(** The events of walking
    [function f(x){ function g(){ function h(y){ return x + y; } } }]:
    every identifier node gets a [Resolve] in the scope current where it
    is rendered, binding occurrences also a [Declare]. *)
Definition nested_program : list Event :=
  [Declare (occ 1 "f"); Resolve (occ 1 "f"); PushScope 100;
   Declare (occ 2 "x"); Resolve (occ 2 "x");
   Declare (occ 3 "g"); Resolve (occ 3 "g"); PushScope 101;
   Declare (occ 4 "h"); Resolve (occ 4 "h"); PushScope 102;
   Declare (occ 5 "y"); Resolve (occ 5 "y");
   Resolve (occ 6 "x"); Resolve (occ 7 "y");
   PopScope 102; PopScope 101; PopScope 100].

(** [(function(){ var x; x; }); (function(){ x; });]: the first function
    declares [x], the second one uses the global [x]. *)
Definition sibling_functions : list Event :=
  [PushScope 100; Declare (occ 1 "x"); Resolve (occ 1 "x"); PopScope 100;
   PushScope 101; Resolve (occ 2 "x"); PopScope 101].

(** [(function(){ a; }); (function(){ a; });]: two functions using the
    global [a]. *)
Definition two_leaking_functions : list Event :=
  [PushScope 100; Resolve (occ 1 "a"); PopScope 100;
   PushScope 101; Resolve (occ 2 "a"); PopScope 101].

(** [window;] *)
Definition global_window : list Event := [Resolve (occ 1 "window")].

(** [function(x){ x; }] at the top level, the binding occurrence of [x]
    (node 2) having only its [Declare] event, the use (node 3) a
    [Resolve]. *)
Definition declared_parameter : list Event :=
  [PushScope 100; Declare (occ 2 "x"); Resolve (occ 3 "x"); PopScope 100].

(** Two nested scopes entered, none exited yet. *)
Definition two_open_scopes : list Event := [PushScope 100; PushScope 101].

(* ------------------------------------------------------------------ *)
(** ** Further parts of the module *)

(** [Scope.close_all]: close every child (recursively), then [self].
    The recursion follows the children lists, whose depth is below
    [length s] in a scope tree; [fuel] bounds it. *)
Fixpoint Scope_close_all_fuel (fuel : nat) (s : Store) (i : nat) : Result Store :=
  match fuel with
  | 0 => inr s
  | S f =>
      match nth_error s i with
      | None => inl (AttributeError "scope")
      | Some sc =>
          s1 <- fold_left (fun acc c => st <- acc ;; Scope_close_all_fuel f st c)
                          (children sc) (inr s) ;;
          Scope_close s1 i
      end
  end.

Definition Scope_close_all (s : Store) (i : nat) : Result Store :=
  Scope_close_all_fuel (length s) s i.

(** The scopes below [i] (and [i] itself), following children lists. *)
Inductive descendant (s : Store) (i : nat) : nat -> Prop :=
| descendant_self : descendant s i i
| descendant_child j sc c :
    descendant s i j -> nth_error s j = Some sc -> In c (children sc) ->
    descendant s i c.

(** Whether scope [j] of the store is marked closed. *)
Definition closed_at (s : Store) (j : nat) : bool :=
  match nth_error s j with Some sc => closed sc | None => false end.

(** Number of [PushScope] and [PopScope] events. *)
Definition count_push (evs : list Event) : nat :=
  length (filter (fun e => match e with PushScope _ => true | _ => false end) evs).

Definition count_pop (evs : list Event) : nat :=
  length (filter (fun e => match e with PopScope _ => true | _ => false end) evs).

(** A scope with its remap table emptied: what [build_remap_symbols]
    leaves unchanged. *)
Definition strip_remap (sc : Scope) : Scope := set_remapped sc [].

(** The stack, from its top, follows parent links down to the global
    scope. *)
Fixpoint stack_chain (s : Store) (st : list nat) : Prop :=
  match st with
  | [] => True
  | [i] => i = global_scope
  | i :: ((p :: _) as rest) =>
      (exists sc, nth_error s i = Some sc /\ parent sc = Some p) /\
      stack_chain s rest
  end.

(** The scope tree the walk builds: the global scope has no parent;
    any other scope has a parent with a smaller id that lists it as a
    child; children lists have no repetition and point back; every
    declared symbol has a count; the stack is a path to the root; and
    [scopes] maps a node to a scope created for it. *)
Definition tree_state (o : Obfuscator) : Prop :=
  (exists r, nth_error (store o) global_scope = Some r /\ parent r = None) /\
  (forall j sc, nth_error (store o) j = Some sc ->
     (j <> global_scope -> exists p psc, parent sc = Some p /\ p < j /\
        nth_error (store o) p = Some psc /\ In j (children psc)) /\
     NoDup (children sc) /\
     (forall c, In c (children sc) -> j < c /\
        exists csc, nth_error (store o) c = Some csc /\ parent csc = Some j) /\
     incl (local_declared_symbols sc) (map fst (referenced_symbols sc))) /\
  stack_chain (store o) (stack o) /\
  (forall nd j, dict_get Nat.eqb (scopes o) nd = Some j ->
     exists sc, nth_error (store o) j = Some sc /\ node sc = Some nd).

(** Repetition check on characters. *)
Fixpoint nodup_ascii (l : list ascii) : bool :=
  match l with
  | [] => true
  | c :: l' => negb (existsb (Ascii.eqb c) l') && nodup_ascii l'
  end.

(** The tree links of a scope: its parent and its children. *)
Definition scope_links (sc : Scope) : option nat * list nat :=
  (parent sc, children sc).

(** The links the scope stores of a run have (see [tree_state]): a
    child has a larger id than its parent, exists, and points back to
    it; no child is listed twice. *)
Definition child_links (s : Store) : Prop :=
  forall j sc, nth_error s j = Some sc ->
    NoDup (children sc) /\
    forall c, In c (children sc) ->
      j < c /\ exists csc, nth_error s c = Some csc /\ parent csc = Some j.

(* ================================================================== *)
(** * Proofs *)

(** ** General list facts *)

Lemma mem_In s l : mem s l = true <-> In s l.
Proof.
  unfold mem. rewrite existsb_exists. split.
  - intros [x [Hx Heq]]. apply String.eqb_eq in Heq. now subst.
  - intros H. exists s. split; [exact H | apply String.eqb_refl].
Qed.

Lemma StronglySorted_app {A} (R : A -> A -> Prop) (l1 l2 : list A) :
  StronglySorted R l1 -> StronglySorted R l2 ->
  (forall x y, In x l1 -> In y l2 -> R x y) ->
  StronglySorted R (l1 ++ l2).
Proof.
  induction 1 as [|a l1 H1 IH HF]; intros H2 Hx; simpl; [exact H2|].
  constructor.
  - apply IH; [exact H2|]. intros x y Hx1 Hy. apply Hx; simpl; auto.
  - apply Forall_app. split; [exact HF|].
    apply Forall_forall. intros y Hy. apply Hx; simpl; auto.
Qed.

Lemma StronglySorted_map {A B} (R : A -> A -> Prop) (R' : B -> B -> Prop)
  (f : A -> B) (l : list A) :
  (forall x y, R x y -> R' (f x) (f y)) ->
  StronglySorted R l -> StronglySorted R' (map f l).
Proof.
  intros Hf. induction 1 as [|a l H IH HF]; simpl; constructor; [exact IH|].
  apply Forall_map. eapply Forall_impl; [|exact HF]. intros y. apply Hf.
Qed.

Lemma StronglySorted_filter {A} (R : A -> A -> Prop) (p : A -> bool) l :
  StronglySorted R l -> StronglySorted R (filter p l).
Proof.
  induction 1 as [|a l H IH HF]; simpl; [constructor|].
  destruct (p a); [|exact IH]. constructor; [exact IH|].
  apply Forall_forall. intros y Hy. apply filter_In in Hy.
  rewrite Forall_forall in HF. apply HF, Hy.
Qed.

Lemma In_firstn {A} k (l : list A) x : In x (firstn k l) -> In x l.
Proof.
  intros H. rewrite <- (firstn_skipn k l). apply in_or_app. now left.
Qed.

Lemma StronglySorted_firstn {A} (R : A -> A -> Prop) k (l : list A) :
  StronglySorted R l -> StronglySorted R (firstn k l).
Proof.
  revert l. induction k as [|k IH]; intros l H; simpl; [constructor|].
  destruct l as [|a l]; [constructor|].
  apply StronglySorted_inv in H as [H HF]. constructor; [now apply IH|].
  rewrite Forall_forall in *. intros y Hy. apply HF.
  eapply In_firstn; exact Hy.
Qed.

Lemma StronglySorted_NoDup {A} (R : A -> A -> Prop) l :
  (forall x, ~ R x x) -> StronglySorted R l -> NoDup l.
Proof.
  intros Hirr. induction 1 as [|a l H IH HF]; constructor; [|exact IH].
  intros Ha. rewrite Forall_forall in HF. exact (Hirr a (HF a Ha)).
Qed.

(** Two positions of a strongly sorted list are ordered by [R]. *)
Lemma StronglySorted_nth_error {A} (R : A -> A -> Prop) l i j x y :
  StronglySorted R l -> i < j ->
  nth_error l i = Some x -> nth_error l j = Some y -> R x y.
Proof.
  intros H. revert i j. induction H as [|a l H IH HF]; intros i j Hij Hi Hj.
  - destruct i; discriminate.
  - destruct i as [|i], j as [|j]; try lia; simpl in *.
    + injection Hi as <-. rewrite Forall_forall in HF. apply HF.
      eapply nth_error_In; exact Hj.
    + apply (IH i j); auto; lia.
Qed.

Lemma StronglySorted_weaken {A} (R R' : A -> A -> Prop) l :
  (forall x y, In x l -> In y l -> R x y -> R' x y) ->
  StronglySorted R l -> StronglySorted R' l.
Proof.
  intros Himp H. induction H as [|a l H IH HF]; constructor.
  - apply IH. intros x y Hx Hy. apply Himp; simpl; auto.
  - rewrite Forall_forall in *. intros y Hy. apply Himp; simpl; auto.
Qed.

(** ** NameGenerator *)

Lemma product_In cs n s :
  In s (product cs n) <-> String.length s = n /\ over cs s.
Proof.
  revert s. induction n as [|m IH]; intros s; simpl.
  - split.
    + intros [<- | []]. simpl. auto.
    + intros [Hl _]. destruct s; [now left | discriminate].
  - rewrite in_flat_map. split.
    + intros [c [Hc Hs]]. apply in_map_iff in Hs as [u [<- Hu]].
      apply IH in Hu as [Hl Ho]. simpl. auto.
    + intros [Hl Ho]. destruct s as [|c u]; [discriminate|].
      simpl in Hl, Ho. destruct Ho as [Hc Ho]. exists c. split; [exact Hc|].
      apply in_map. apply IH. split; [lia | exact Ho].
Qed.

Lemma index_of_lt pre c post c' :
  NoDup (pre ++ c :: post) -> In c' post ->
  index_of (pre ++ c :: post) c < index_of (pre ++ c :: post) c'.
Proof.
  induction pre as [|a pre IH]; intros Hnd Hin; simpl in *.
  - rewrite Ascii.eqb_refl. apply NoDup_cons_iff in Hnd as [Hc _].
    destruct (Ascii.eqb c' c) eqn:E; [|lia].
    apply Ascii.eqb_eq in E. subst. contradiction.
  - apply NoDup_cons_iff in Hnd as [Ha Hnd].
    destruct (Ascii.eqb c a) eqn:E1.
    { apply Ascii.eqb_eq in E1. subst. exfalso. apply Ha.
      apply in_or_app. right. now left. }
    destruct (Ascii.eqb c' a) eqn:E2.
    { apply Ascii.eqb_eq in E2. subst. exfalso. apply Ha.
      apply in_or_app. right. now right. }
    specialize (IH Hnd Hin). lia.
Qed.

Lemma lex_lt_irrefl cs s : ~ lex_lt cs s s.
Proof.
  induction s as [|a s IH]; simpl; [tauto|]. intros [H | [_ H]]; [lia | auto].
Qed.

Lemma shortlex_lt_irrefl cs s : ~ shortlex_lt cs s s.
Proof.
  unfold shortlex_lt. intros [H | [_ H]]; [lia | exact (lex_lt_irrefl cs s H)].
Qed.

Lemma product_sorted cs n :
  NoDup cs -> StronglySorted (lex_lt cs) (product cs n).
Proof.
  intros Hnd. induction n as [|m IH]; simpl.
  { repeat constructor. }
  assert (Hgen : forall pre rest, cs = pre ++ rest ->
    StronglySorted (lex_lt cs)
      (flat_map (fun c => map (String c) (product cs m)) rest)).
  { intros pre rest. revert pre.
    induction rest as [|c rest IHr]; intros pre Hcs; simpl; [constructor|].
    apply StronglySorted_app.
    - apply (StronglySorted_map (lex_lt cs)); [|exact IH].
      intros x y Hxy. simpl. right. auto.
    - apply (IHr (pre ++ [c])). rewrite <- app_assoc. exact Hcs.
    - intros x y Hx Hy. apply in_map_iff in Hx as [u [<- _]].
      apply in_flat_map in Hy as [c' [Hc' Hy]].
      apply in_map_iff in Hy as [v [<- _]]. simpl. left.
      subst cs. apply index_of_lt; assumption. }
  apply (Hgen []). reflexivity.
Qed.

Lemma candidates_sorted cs a N :
  NoDup cs ->
  StronglySorted (shortlex_lt cs) (flat_map (product cs) (seq a N)).
Proof.
  intros Hnd. revert a. induction N as [|N IH]; intros a; simpl; [constructor|].
  apply StronglySorted_app.
  - apply (StronglySorted_weaken (lex_lt cs)); [|now apply product_sorted].
    intros x y Hx Hy Hxy. apply product_In in Hx, Hy. right.
    split; [lia | exact Hxy].
  - apply IH.
  - intros x y Hx Hy. apply product_In in Hx as [Hx _].
    apply in_flat_map in Hy as [n [Hn Hy]]. apply in_seq in Hn.
    apply product_In in Hy as [Hy _]. left. lia.
Qed.

Lemma iter_upto_sorted ng N :
  NoDup (charset ng) -> StronglySorted (shortlex_lt (charset ng)) (iter_upto ng N).
Proof.
  intros Hnd. apply StronglySorted_filter, candidates_sorted, Hnd.
Qed.

Lemma iter_upto_In ng N s :
  In s (iter_upto ng N) <->
  (1 <= String.length s <= N /\ over (charset ng) s /\ ~ In s (skip ng)).
Proof.
  unfold iter_upto. rewrite filter_In, in_flat_map. split.
  - intros [[n [Hn Hs]] Hm]. apply in_seq in Hn. apply product_In in Hs.
    apply negb_true_iff in Hm. split; [lia|]. split; [tauto|].
    intros Hin. apply mem_In in Hin. congruence.
  - intros [Hl [Ho Hsk]]. split.
    + exists (String.length s). split; [apply in_seq; lia|].
      apply product_In. auto.
    + apply negb_true_iff. destruct (mem s (skip ng)) eqn:E; [|reflexivity].
      apply mem_In in E. contradiction.
Qed.

Lemma iter_upto_prefix ng N M :
  N <= M -> exists l, iter_upto ng M = iter_upto ng N ++ l.
Proof.
  intros Hle. unfold iter_upto.
  replace M with (N + (M - N)) by lia. rewrite seq_app, flat_map_app, filter_app.
  eexists. reflexivity.
Qed.

Lemma gen_from_firstn ng k n fuel :
  gen_from ng k n fuel =
  firstn k (filter (fun s => negb (mem s (skip ng)))
                   (flat_map (product (charset ng)) (seq n fuel))).
Proof.
  revert k n. induction fuel as [|f IH]; intros k n; simpl.
  { now rewrite firstn_nil. }
  rewrite filter_app. fold (yield_len ng n).
  destruct (Nat.leb_spec k (length (yield_len ng n))) as [Hle | Hgt].
  - rewrite firstn_app. replace (k - length (yield_len ng n)) with 0 by lia.
    simpl. now rewrite app_nil_r.
  - rewrite firstn_app, firstn_all2 by lia. f_equal. apply IH.
Qed.

Lemma take_names_iter_upto ng k :
  take_names ng k = firstn k (iter_upto ng (k + length (skip ng))).
Proof. unfold take_names. apply gen_from_firstn. Qed.

Lemma take_names_In ng k s :
  In s (take_names ng k) -> ~ In s (skip ng).
Proof.
  rewrite take_names_iter_upto. intros H. apply In_firstn in H.
  apply iter_upto_In in H. tauto.
Qed.

Lemma take_names_sorted ng k :
  StronglySorted (fun a b => String.length a <= String.length b)
                 (take_names ng k).
Proof.
  rewrite take_names_iter_upto. apply StronglySorted_firstn.
  apply StronglySorted_filter.
  generalize 1. induction (k + length (skip ng)) as [|N IH]; intros a;
    simpl; [constructor|].
  apply StronglySorted_app.
  - apply (StronglySorted_weaken (fun _ _ => True)).
    + intros x y Hx Hy _. apply product_In in Hx, Hy. lia.
    + induction (product (charset ng) a); constructor; auto.
      apply Forall_forall. auto.
  - apply IH.
  - intros x y Hx Hy. apply product_In in Hx as [Hx _].
    apply in_flat_map in Hy as [n [Hn Hy]]. apply in_seq in Hn.
    apply product_In in Hy as [Hy _]. lia.
Qed.

Lemma product_nonempty cs n : cs <> [] -> 1 <= length (product cs n).
Proof.
  intros Hcs. induction n as [|m IH]; simpl; [lia|].
  destruct cs as [|c cs']; [congruence|]. simpl flat_map.
  rewrite length_app, length_map. lia.
Qed.

Lemma candidates_length cs a N :
  cs <> [] -> N <= length (flat_map (product cs) (seq a N)).
Proof.
  intros Hcs. revert a. induction N as [|N IH]; intros a; simpl; [lia|].
  rewrite length_app. specialize (IH (S a)).
  pose proof (product_nonempty cs a Hcs). lia.
Qed.

Lemma iter_upto_length ng N :
  NoDup (charset ng) -> charset ng <> [] ->
  N - length (skip ng) <= length (iter_upto ng N).
Proof.
  intros Hnd Hcs. unfold iter_upto.
  set (L := flat_map (product (charset ng)) (seq 1 N)).
  pose proof (filter_length (fun s => negb (mem s (skip ng))) L) as Hsplit.
  assert (HL : N <= length L) by (apply candidates_length, Hcs).
  assert (Hout : length (filter (fun x => negb (negb (mem x (skip ng)))) L)
                 <= length (skip ng)).
  { apply NoDup_incl_length.
    - apply NoDup_filter. eapply StronglySorted_NoDup;
        [apply shortlex_lt_irrefl | apply candidates_sorted, Hnd].
    - intros x Hx. apply filter_In in Hx as [_ Hx].
      rewrite negb_involutive in Hx. apply mem_In, Hx. }
  lia.
Qed.

(** C8: for a repetition-free alphabet [cs] and any exclusion set, the
    names the generator yields up to any length [N] are strictly ordered
    by length and then alphabetically, and are exactly the strings over
    [cs] of length 1 to [N] that are not excluded; longer runs extend
    shorter ones; and for a non-empty alphabet the first [k] values drawn
    from it are always [k] values, the first [k] of that enumeration. *)
Theorem NameGenerator_enumeration (skip_ : list string) (cs : list ascii) :
  NoDup cs ->
  let ng := NameGenerator_init skip_ cs in
  (forall N, StronglySorted (shortlex_lt cs) (iter_upto ng N)) /\
  (forall N s, In s (iter_upto ng N) <->
      (1 <= String.length s <= N /\ over cs s /\ ~ In s skip_)) /\
  (forall N M, N <= M -> exists l, iter_upto ng M = iter_upto ng N ++ l) /\
  (cs <> [] -> forall k N, k + length skip_ <= N ->
      take_names ng k = firstn k (iter_upto ng N) /\
      length (take_names ng k) = k).
Proof.
  intros Hnd ng. split; [|split; [|split]].
  - intros N. apply (iter_upto_sorted ng), Hnd.
  - intros N s. apply (iter_upto_In ng).
  - intros N M. apply iter_upto_prefix.
  - intros Hcs k N HN.
    pose proof (iter_upto_length ng (k + length skip_) Hnd Hcs) as Hlen.
    simpl in Hlen.
    assert (Hk : k <= length (iter_upto ng (k + length skip_))) by lia.
    rewrite take_names_iter_upto. simpl skip.
    destruct (iter_upto_prefix ng _ _ HN) as [l ->]. split.
    + rewrite firstn_app. replace (k - _) with 0 by lia.
      simpl. now rewrite app_nil_r.
    + rewrite length_firstn. lia.
Qed.

(** ** Dicts *)

Section Dicts.
Context {K V : Type} (eqb : K -> K -> bool).
Hypothesis eqb_spec : forall a b, eqb a b = true <-> a = b.

Lemma eqb_refl' a : eqb a a = true.
Proof. now apply eqb_spec. Qed.

Lemma dict_get_set (d : list (K * V)) k k' v :
  dict_get eqb (dict_set eqb d k' v) k =
  if eqb k k' then Some v else dict_get eqb d k.
Proof.
  induction d as [|[k1 v1] d IH]; simpl.
  - reflexivity.
  - destruct (eqb k' k1) eqn:E1; simpl.
    + apply eqb_spec in E1. subst k1. destruct (eqb k k'); reflexivity.
    + rewrite IH. destruct (eqb k k') eqn:E2; [|reflexivity].
      apply eqb_spec in E2. subst. rewrite E1. reflexivity.
Qed.

Lemma dict_get_default_set (d : list (K * V)) k k' v dflt :
  dict_get_default eqb (dict_set eqb d k' v) k dflt =
  if eqb k k' then v else dict_get_default eqb d k dflt.
Proof.
  unfold dict_get_default. rewrite dict_get_set. now destruct (eqb k k').
Qed.

Lemma In_dict_set (d : list (K * V)) k v k' v' :
  In (k, v) (dict_set eqb d k' v') -> In (k, v) d \/ (k = k' /\ v = v').
Proof.
  induction d as [|[k1 v1] d IH]; simpl.
  - intros [H | []]. injection H as <- <-. auto.
  - destruct (eqb k' k1) eqn:E.
    + apply eqb_spec in E. subst k1. intros [H | H].
      * injection H as <- <-. auto.
      * auto.
    + intros [H | H]; [auto|]. destruct (IH H) as [H' | H']; auto.
Qed.

Lemma dict_get_In (d : list (K * V)) k v :
  dict_get eqb d k = Some v -> In (k, v) d.
Proof.
  induction d as [|[k1 v1] d IH]; simpl; [discriminate|].
  destruct (eqb k k1) eqn:E.
  - intros H. injection H as <-. apply eqb_spec in E. subst. now left.
  - intros H. right. auto.
Qed.

Lemma In_dict_get (d : list (K * V)) k v :
  NoDup (map fst d) -> In (k, v) d -> dict_get eqb d k = Some v.
Proof.
  induction d as [|[k1 v1] d IH]; simpl; [tauto|].
  intros Hnd [H | H]; apply NoDup_cons_iff in Hnd as [Hk Hnd].
  - injection H as <- <-. now rewrite eqb_refl'.
  - destruct (eqb k k1) eqn:E; [|auto].
    apply eqb_spec in E. subst. exfalso. apply Hk.
    apply in_map_iff. exists (k1, v). auto.
Qed.
End Dicts.

Lemma string_eqb_spec a b : String.eqb a b = true <-> a = b.
Proof. apply String.eqb_eq. Qed.

Lemma nat_eqb_spec a b : Nat.eqb a b = true <-> a = b.
Proof. apply Nat.eqb_eq. Qed.

(** ** The store *)

Lemma length_store_set s i x : length (store_set s i x) = length s.
Proof.
  revert i. induction s as [|y s IH]; intros [|i]; simpl; auto.
Qed.

Lemma nth_error_store_set s i x j :
  nth_error (store_set s i x) j =
  if Nat.eqb i j then
    match nth_error s j with Some _ => Some x | None => None end
  else nth_error s j.
Proof.
  revert i j. induction s as [|y s IH]; intros [|i] [|j]; simpl; auto;
    try (destruct (Nat.eqb _ _); reflexivity).
Qed.

Lemma nth_error_store_set_inv s i x j sc :
  nth_error (store_set s i x) j = Some sc ->
  (j = i /\ sc = x /\ exists y, nth_error s i = Some y) \/
  (j <> i /\ nth_error s j = Some sc).
Proof.
  rewrite nth_error_store_set. destruct (Nat.eqb_spec i j) as [<- | Hne].
  - destruct (nth_error s i) eqn:E; [|discriminate]. intros H.
    injection H as <-. left. eauto.
  - intros H. right. auto.
Qed.

Lemma nth_error_store_set_same s i x y :
  nth_error s i = Some y -> nth_error (store_set s i x) i = Some x.
Proof. rewrite nth_error_store_set, Nat.eqb_refl. now intros ->. Qed.

Lemma nth_error_store_set_other s i x j :
  i <> j -> nth_error (store_set s i x) j = nth_error s j.
Proof.
  intros Hne. rewrite nth_error_store_set.
  destruct (Nat.eqb_spec i j); [contradiction | reflexivity].
Qed.

Lemma length_store_update s i f : length (store_update s i f) = length s.
Proof.
  unfold store_update. destruct (nth_error s i); auto using length_store_set.
Qed.

Lemma nth_error_store_update_inv s i f j sc :
  nth_error (store_update s i f) j = Some sc ->
  (j = i /\ exists y, nth_error s i = Some y /\ sc = f y) \/
  (j <> i /\ nth_error s j = Some sc).
Proof.
  unfold store_update. destruct (nth_error s i) as [y|] eqn:Ey.
  - intros H. apply nth_error_store_set_inv in H
      as [[-> [-> _]] | H]; [left; eauto | right; exact H].
  - intros H. destruct (Nat.eq_dec j i) as [-> | Hne]; [congruence|].
    right. auto.
Qed.

Lemma nth_error_snoc_inv {A} (l : list A) x j y :
  nth_error (l ++ [x]) j = Some y ->
  (j < length l /\ nth_error l j = Some y) \/ (j = length l /\ y = x).
Proof.
  intros H. destruct (Nat.lt_ge_cases j (length l)) as [Hlt | Hge].
  - left. rewrite nth_error_app1 in H by exact Hlt. auto.
  - right. rewrite nth_error_app2 in H by exact Hge.
    destruct (j - length l) eqn:E; simpl in H.
    + injection H as <-. split; [lia | reflexivity].
    + destruct n; discriminate.
Qed.

(** ** Scope operations: what they leave unchanged *)

Lemma Scope_close_shape s i s' :
  Scope_close s i = inr s' ->
  length s' = length s /\
  forall j sc', nth_error s' j = Some sc' ->
    exists sc, nth_error s j = Some sc /\
      remapped_symbols sc' = remapped_symbols sc /\
      children sc' = children sc /\
      local_declared_symbols sc' = local_declared_symbols sc /\
      (j <> i -> sc' = sc).
Proof.
  unfold Scope_close. destruct (nth_error s i) as [sc|] eqn:Ei; [|discriminate].
  destruct (closed sc); [discriminate|]. intros H. injection H as <-.
  split; [apply length_store_set|]. intros j sc' Hj.
  apply nth_error_store_set_inv in Hj as [[-> [-> _]] | [Hne Hj]].
  - exists sc. repeat split; auto. intros []; reflexivity.
  - exists sc'. repeat split; auto.
Qed.

Lemma remap_scope_shape ng s i sc j sc' :
  nth_error (remap_scope ng s i sc) j = Some sc' ->
  (j = i /\ nth_error s i <> None /\ sc' = set_remapped sc
     (fold_left (fun d kv => dict_set String.eqb d (fst kv) (snd kv))
                (remap_pairs ng s i sc) (remapped_symbols sc))) \/
  (j <> i /\ nth_error s j = Some sc').
Proof.
  unfold remap_scope. intros H.
  apply nth_error_store_set_inv in H as [[-> [-> [y Hy]]] | H].
  - left. rewrite Hy. repeat split; congruence.
  - right. exact H.
Qed.

Lemma length_remap_scope ng s i sc : length (remap_scope ng s i sc) = length s.
Proof. apply length_store_set. Qed.

Lemma In_fold_dict_set (pairs d : list (string * string)) k v :
  In (k, v) (fold_left (fun d kv => dict_set String.eqb d (fst kv) (snd kv))
                       pairs d) ->
  In (k, v) d \/ In (k, v) pairs.
Proof.
  revert d. induction pairs as [|[k1 v1] pairs IH]; intros d H; simpl in *.
  - auto.
  - destruct (IH _ H) as [H1 | H1]; [|auto].
    apply In_dict_set in H1 as [H1 | [-> ->]].
    + auto.
    + right. now left.
    + exact string_eqb_spec.
Qed.

Lemma remap_pairs_In ng s i sc k v :
  In (k, v) (remap_pairs ng s i sc) ->
  In k (local_declared_symbols sc) /\ ~ In v (skip ng).
Proof.
  unfold remap_pairs. intros H. split.
  - apply in_combine_l in H. unfold remap_order in H.
    apply in_map_iff in H as [[k' c] [Hk Hin]]. simpl in Hk. subst k'.
    apply filter_In in Hin as [_ Hm]. apply mem_In, Hm.
  - apply in_combine_r, take_names_In in H. simpl in H.
    intros Hv. apply H, in_or_app. now right.
Qed.

(** [build_remap_symbols] only ever runs the remap step on the scope it
    starts from (unless [children_only]) and on children of scopes it
    visits; a property kept by every such step is kept by the whole
    recursion. *)
Lemma build_preserves (P : Store -> Prop) (Q : nat -> Prop) ng :
  (forall s i sc, P s -> Q i -> nth_error s i = Some sc ->
     P (remap_scope ng s i sc)) ->
  (forall s i sc c, P s -> nth_error s i = Some sc -> In c (children sc) -> Q c) ->
  forall fuel s i co, P s -> (co = true \/ Q i) ->
    P (build_remap_symbols_fuel fuel ng s i co).
Proof.
  intros Hrem Hch. induction fuel as [|f IH]; intros s i co Hs Hco; simpl;
    [exact Hs|].
  destruct (nth_error s i) as [sc|] eqn:Ei; [|exact Hs].
  assert (Hs1 : P (if co then s else remap_scope ng s i sc)).
  { destruct co; [exact Hs|]. destruct Hco as [H | H]; [discriminate|].
    eapply Hrem; eauto. }
  assert (Hc : forall c, In c (children sc) -> Q c)
    by (intros c Hin; exact (Hch s i sc c Hs Ei Hin)).
  revert Hs1 Hc. generalize (if co then s else remap_scope ng s i sc) as st.
  generalize (children sc) as cs.
  induction cs as [|c cs IHc]; intros st Hst Hc; simpl; [exact Hst|].
  apply IHc; [|intros; apply Hc; simpl; auto].
  apply IH; [exact Hst | right; apply Hc; simpl; auto].
Qed.

(** ** Scope.resolve *)

Lemma resolve_loop_found fuel s sco k v :
  resolve_loop fuel s sco k = Some v ->
  exists j sc, nth_error s j = Some sc /\ In (k, v) (remapped_symbols sc).
Proof.
  revert sco. induction fuel as [|f IH]; intros sco; simpl; [discriminate|].
  destruct sco as [j|]; [|discriminate].
  destruct (nth_error s j) as [sc|] eqn:Ej; [|discriminate].
  destruct (dict_get String.eqb (remapped_symbols sc) k) as [v'|] eqn:Eg.
  - intros H. injection H as <-. exists j, sc. split; [exact Ej|].
    eapply dict_get_In; [exact string_eqb_spec | exact Eg].
  - apply IH.
Qed.

Lemma resolve_loop_undeclared fuel s j k :
  (forall j' sc v, nth_error s j' = Some sc -> In (k, v) (remapped_symbols sc) ->
     In k (local_declared_symbols sc)) ->
  ~ In k (declared_symbols_fuel fuel s j) ->
  resolve_loop fuel s (Some j) k = None.
Proof.
  intros Hkeys. revert j. induction fuel as [|f IH]; intros j Hnd; simpl;
    [reflexivity|].
  simpl in Hnd. destruct (nth_error s j) as [sc|] eqn:Ej; [|reflexivity].
  destruct (dict_get String.eqb (remapped_symbols sc) k) as [v|] eqn:Eg.
  - exfalso. apply Hnd, in_or_app. left. eapply Hkeys; [exact Ej|].
    eapply dict_get_In; [exact string_eqb_spec | exact Eg].
  - destruct (parent sc) as [p|].
    + apply IH. intros Hin. apply Hnd, in_or_app. now right.
    + destruct f; reflexivity.
Qed.

(** ** States reached by the walk *)

Lemma nth_error_store_update s i f j sc :
  nth_error s j = Some sc ->
  nth_error (store_update s i f) j = Some (if Nat.eqb i j then f sc else sc).
Proof.
  unfold store_update. intros Hj. destruct (Nat.eqb_spec i j) as [<- | Hne].
  - rewrite Hj. eapply nth_error_store_set_same; exact Hj.
  - destruct (nth_error s i); [|exact Hj].
    rewrite nth_error_store_set_other; assumption.
Qed.

Lemma wf_init og rk : wf_state (Obfuscator_init og rk).
Proof.
  unfold wf_state, Obfuscator_init. simpl. split; [lia|]. split.
  { constructor; [intros []|constructor]. }
  split.
  - intros i [<- | []]. exists (Scope_new None None). auto.
  - intros [|j] sc H; simpl in H; [|destruct j; discriminate].
    injection H as <-. simpl. auto.
Qed.

Lemma wf_store_update o cur f ids scs :
  wf_state o ->
  (forall sc, closed (f sc) = closed sc /\
              remapped_symbols (f sc) = remapped_symbols sc /\
              children (f sc) = children sc) ->
  wf_state (set_state o ids scs (stack o) (store_update (store o) cur f)).
Proof.
  intros [Hlen [Hnd [Hopen Hsh]]] Hf. unfold wf_state. simpl.
  rewrite length_store_update. split; [exact Hlen|]. split; [exact Hnd|]. split.
  - intros i Hi. destruct (Hopen i Hi) as [sc [Hsc Hcl]].
    eexists. split; [apply nth_error_store_update; exact Hsc|].
    destruct (Nat.eqb cur i); [|exact Hcl]. rewrite (proj1 (Hf sc)). exact Hcl.
  - intros j sc Hj. apply nth_error_store_update_inv in Hj
      as [[-> [y [Hy ->]]] | [_ Hj]].
    + destruct (Hf y) as [_ [-> ->]]. apply (Hsh _ _ Hy).
    + apply (Hsh _ _ Hj).
Qed.

Lemma wf_handle o e o' : wf_state o -> handle o e = inr o' -> wf_state o'.
Proof.
  intros Hwf. pose proof Hwf as [Hlen [Hnd [Hopen Hsh]]].
  assert (Hlt : forall i, In i (stack o) -> i < length (store o)).
  { intros i Hi. destruct (Hopen i Hi) as [sc [Hsc _]].
    apply nth_error_Some. congruence. }
  destruct e as [nd | nd | n | n]; simpl.
  - (* PushScope *)
    unfold push_scope, current_scope, Scope_nest.
    destruct (stack o) as [|cur rest] eqn:Est; simpl; [discriminate|].
    intros H. injection H as <-. unfold wf_state. simpl.
    set (s1 := store_update (store o) cur
                 (fun sc => set_children sc (children sc ++ [length (store o)]))).
    assert (Hs1 : length s1 = length (store o)) by apply length_store_update.
    rewrite length_app, Hs1. simpl. split; [lia|]. split.
    { constructor; [|exact Hnd].
      intros Hin. specialize (Hlt _ Hin). lia. }
    split.
    + intros i [<- | Hi].
      * exists (Scope_new (Some nd) (Some cur)). split; [|reflexivity].
        rewrite nth_error_app2 by lia. rewrite Hs1, Nat.sub_diag. reflexivity.
      * destruct (Hopen i Hi) as [sc [Hsc Hcl]].
        eexists. split.
        -- rewrite nth_error_app1 by (rewrite Hs1; apply Hlt, Hi).
           apply nth_error_store_update. exact Hsc.
        -- destruct (Nat.eqb cur i); exact Hcl.
    + intros j sc Hj. apply nth_error_snoc_inv in Hj
        as [[_ Hj] | [_ ->]]; [|simpl; auto].
      apply nth_error_store_update_inv in Hj as [[-> [y [Hy ->]]] | [_ Hj]].
      * destruct (Hsh _ _ Hy) as [Hr Hc]. simpl. split; [exact Hr|].
        intros Hin. apply in_app_or in Hin as [Hin | [Hin | []]];
          [exact (Hc Hin) | unfold global_scope in Hin; lia].
      * apply (Hsh _ _ Hj).
  - (* PopScope *)
    unfold pop_scope. destruct (stack o) as [|i rest] eqn:Est; [discriminate|].
    unfold Scope_close. destruct (nth_error (store o) i) as [sc|] eqn:Ei;
      [|discriminate].
    destruct (closed sc) eqn:Ecl; [discriminate|]. simpl.
    intros H. injection H as <-. unfold wf_state. simpl.
    apply NoDup_cons_iff in Hnd as [Hni Hnd].
    rewrite length_store_set. split; [exact Hlen|]. split; [exact Hnd|]. split.
    + intros i' Hi'. rewrite nth_error_store_set_other
        by (intros ->; contradiction).
      apply Hopen. now right.
    + intros j sc' Hj. apply nth_error_store_set_inv in Hj
        as [[-> [-> _]] | [_ Hj]]; [apply (Hsh _ _ Ei) | apply (Hsh _ _ Hj)].
  - (* Declare *)
    unfold declare, current_scope. destruct (stack o) as [|cur rest] eqn:Est;
      simpl; [discriminate|].
    intros H. injection H as <-. rewrite <- Est.
    apply wf_store_update; [exact Hwf|]. intros sc. simpl. auto.
  - (* Resolve *)
    unfold reference, current_scope. destruct (stack o) as [|cur rest] eqn:Est;
      simpl; [discriminate|].
    intros H. injection H as <-. rewrite <- Est.
    apply wf_store_update; [exact Hwf|]. intros sc. simpl. auto.
Qed.

Lemma wf_walk o evs o' : wf_state o -> walk o evs = inr o' -> wf_state o'.
Proof.
  revert o. induction evs as [|e evs IH]; intros o Hwf; simpl.
  - intros H. injection H as <-. exact Hwf.
  - destruct (handle o e) as [err|o1] eqn:He; simpl; [discriminate|].
    apply IH. eapply wf_handle; eauto.
Qed.

Lemma handle_config o e o' :
  handle o e = inr o' ->
  obfuscate_globals o' = obfuscate_globals o /\
  reserved_keywords o' = reserved_keywords o.
Proof.
  destruct e as [nd | nd | n | n]; simpl;
    unfold push_scope, pop_scope, declare, reference, current_scope;
    destruct (stack o) as [|i rest]; simpl; try discriminate.
  - intros H. injection H as <-. auto.
  - destruct (Scope_close (store o) i); simpl; [discriminate|].
    intros H. injection H as <-. auto.
  - intros H. injection H as <-. auto.
  - intros H. injection H as <-. auto.
Qed.

Lemma walk_config o evs o' :
  walk o evs = inr o' ->
  obfuscate_globals o' = obfuscate_globals o /\
  reserved_keywords o' = reserved_keywords o.
Proof.
  revert o. induction evs as [|e evs IH]; intros o; simpl.
  - intros H. injection H as <-. auto.
  - destruct (handle o e) as [err|o1] eqn:He; simpl; [discriminate|].
    intros H. destruct (IH _ H) as [-> ->]. apply (handle_config _ _ _ He).
Qed.

(** What a successful run consists of. *)
Lemma prewalk_hook_inv og rk evs o :
  prewalk_hook og rk evs = inr o ->
  exists o1 s1,
    walk (Obfuscator_init og rk) evs = inr o1 /\ wf_state o1 /\
    Scope_close (store o1) global_scope = inr s1 /\
    store o = build_remap_symbols (NameGenerator_init rk ID_CHARS) s1
                global_scope (negb og) /\
    identifiers o = identifiers o1.
Proof.
  unfold prewalk_hook. destruct (walk (Obfuscator_init og rk) evs) as [err|o1]
    eqn:Hw; simpl; [discriminate|].
  unfold finalize. destruct (Scope_close (store o1) global_scope) as [err|s1]
    eqn:Hc; simpl; [discriminate|].
  intros H. injection H as <-. exists o1, s1.
  destruct (walk_config _ _ _ Hw) as [Hog Hrk]. simpl in Hog, Hrk.
  rewrite Hog, Hrk. split; [reflexivity|]. split; [|auto].
  eapply wf_walk; [apply wf_init | exact Hw].
Qed.

(** After closing the global scope, the remap tables are still empty and
    the global scope is still nobody's child. *)
Lemma close_global_shape o1 s1 :
  wf_state o1 -> Scope_close (store o1) global_scope = inr s1 ->
  1 <= length s1 /\
  forall j sc, nth_error s1 j = Some sc ->
    remapped_symbols sc = [] /\ ~ In global_scope (children sc).
Proof.
  intros [Hlen [_ [_ Hsh]]] Hc.
  destruct (Scope_close_shape _ _ _ Hc) as [Hl Hs]. rewrite Hl.
  split; [exact Hlen|]. intros j sc Hj.
  destruct (Hs _ _ Hj) as [sc0 [Hj0 [-> [-> _]]]]. apply (Hsh _ _ Hj0).
Qed.

(** The replacement names in the remap tables are never reserved. *)
Lemma build_remap_not_reserved rk s1 i co :
  (forall j sc k v, nth_error s1 j = Some sc ->
     In (k, v) (remapped_symbols sc) -> ~ In v rk) ->
  forall j sc k v,
    nth_error (build_remap_symbols (NameGenerator_init rk ID_CHARS) s1 i co) j
      = Some sc ->
    In (k, v) (remapped_symbols sc) -> ~ In v rk.
Proof.
  intros H0. unfold build_remap_symbols.
  apply (build_preserves
           (fun s => forall j sc k v, nth_error s j = Some sc ->
                     In (k, v) (remapped_symbols sc) -> ~ In v rk)
           (fun _ => True)); [| auto | exact H0 | auto].
  intros s i' sc Hs _ Hi' j sc' k v Hj Hin.
  apply remap_scope_shape in Hj as [[-> [_ ->]] | [_ Hj]].
  - simpl in Hin. apply In_fold_dict_set in Hin as [Hin | Hin].
    + eapply Hs; eauto.
    + apply remap_pairs_In in Hin as [_ Hv]. exact Hv.
  - eapply Hs; eauto.
Qed.

(** With [children_only = True] at the global scope, every remap step
    runs on a scope other than the global one. *)
Lemma build_default_shape rk s1 :
  1 <= length s1 ->
  (forall j sc, nth_error s1 j = Some sc ->
     remapped_symbols sc = [] /\ ~ In global_scope (children sc)) ->
  let s := build_remap_symbols (NameGenerator_init rk ID_CHARS) s1
             global_scope true in
  1 <= length s /\
  (forall j sc, nth_error s j = Some sc -> ~ In global_scope (children sc)) /\
  (forall r, nth_error s global_scope = Some r -> remapped_symbols r = []) /\
  (forall j sc k v, nth_error s j = Some sc -> In (k, v) (remapped_symbols sc) ->
     In k (local_declared_symbols sc)).
Proof.
  intros Hlen Hsh. unfold build_remap_symbols.
  match goal with
  | |- context [build_remap_symbols_fuel ?f ?ng ?s ?i ?co] =>
      pattern (build_remap_symbols_fuel f ng s i co)
  end.
  apply (build_preserves _ (fun i => i <> global_scope)); [| | | now left].
  - intros s i sc [Hl [Hch [Hroot Hkeys]]] Hi Hsc.
    rewrite length_remap_scope. split; [exact Hl|]. split; [|split].
    + intros j sc' Hj. apply remap_scope_shape in Hj as [[-> [_ ->]] | [_ Hj]].
      * exact (Hch _ _ Hsc).
      * exact (Hch _ _ Hj).
    + intros r Hr. apply remap_scope_shape in Hr as [[Heq _] | [_ Hr]].
      * symmetry in Heq. contradiction.
      * exact (Hroot _ Hr).
    + intros j sc' k v Hj Hin.
      apply remap_scope_shape in Hj as [[-> [_ ->]] | [_ Hj]].
      * simpl in *. apply In_fold_dict_set in Hin as [Hin | Hin].
        -- exact (Hkeys _ _ _ _ Hsc Hin).
        -- apply remap_pairs_In in Hin as [Hk _]. exact Hk.
      * exact (Hkeys _ _ _ _ Hj Hin).
  - intros s i sc c [_ [Hch _]] Hsc Hc Heq. subst c. exact (Hch _ _ Hsc Hc).
  - split; [exact Hlen|]. split; [|split].
    + intros j sc Hj. apply (Hsh _ _ Hj).
    + intros r Hr. apply (Hsh _ _ Hr).
    + intros j sc k v Hj Hin. rewrite (proj1 (Hsh _ _ Hj)) in Hin. destruct Hin.
Qed.

(** C4 (amended): under the default configuration, after finalize the
    global scope's remap table is empty, every remap key is a name that
    its own scope declares, and a name free at a scope (referenced there,
    declared neither there nor in any ancestor) resolves to itself from
    that scope; in particular every identifier occurrence recorded in a
    scope where its name is free is rendered unchanged. *)
Theorem finalize_default_keeps_globals (rk : list string) (evs : list Event)
  (o : Obfuscator) :
  prewalk_hook false rk evs = inr o ->
  (exists r, nth_error (store o) global_scope = Some r /\
             remapped_symbols r = []) /\
  (forall j sc k, nth_error (store o) j = Some sc ->
     In k (map fst (remapped_symbols sc)) -> In k (local_declared_symbols sc)) /\
  (forall j k, In k (global_symbols (store o) j) ->
     Scope_resolve (store o) j k = k) /\
  (forall n j, dict_get Nat.eqb (identifiers o) (occ_id n) = Some j ->
     In (value n) (global_symbols (store o) j) -> resolve o n = value n).
Proof.
  intros H. destruct (prewalk_hook_inv _ _ _ _ H)
    as [o1 [s1 [_ [Hwf [Hc [Hst _]]]]]].
  destruct (close_global_shape _ _ Hwf Hc) as [Hl1 Hsh1].
  destruct (build_default_shape rk s1 Hl1 Hsh1) as [Hl [_ [Hroot Hkeys]]].
  simpl negb in Hst. rewrite <- Hst in Hl, Hroot, Hkeys.
  assert (Hglob : forall j k, In k (global_symbols (store o) j) ->
                  Scope_resolve (store o) j k = k).
  { intros j k Hin. unfold global_symbols in Hin.
    destruct (nth_error (store o) j) as [sc|] eqn:Hj; [|destruct Hin].
    apply filter_In in Hin as [_ Hm]. apply negb_true_iff in Hm.
    unfold Scope_resolve. rewrite resolve_loop_undeclared; [reflexivity| |].
    - intros j' sc' v Hj' Hin'. exact (Hkeys _ _ _ _ Hj' Hin').
    - intros Hin'. apply (mem_In k) in Hin'. unfold declared_symbols in Hm.
      congruence. }
  split; [|split; [|split]].
  - destruct (nth_error (store o) global_scope) as [r|] eqn:Er.
    + exists r. split; [reflexivity | exact (Hroot _ eq_refl)].
    + apply nth_error_None in Er. unfold global_scope in Er. lia.
  - intros j sc k Hj Hin. apply in_map_iff in Hin as [[k' v] [Hk Hin]].
    simpl in Hk. subst k'. exact (Hkeys _ _ _ _ Hj Hin).
  - exact Hglob.
  - intros n j Hn Hin. unfold resolve. rewrite Hn. apply Hglob, Hin.
Qed.

(** C4, as stated, fails: in [sibling_functions] the first function's
    remap table has the key [x], while [x] is free in the second
    function (and in the global scope). *)
Lemma remap_key_free_in_sibling :
  match prewalk_hook false [] sibling_functions with
  | inr o =>
      (exists sc, nth_error (store o) 1 = Some sc /\
                  In "x"%string (map fst (remapped_symbols sc))) /\
      In "x"%string (global_symbols (store o) 2)
  | inl _ => False
  end.
Proof.
  vm_compute. split.
  - eexists. split; [reflexivity|]. left. reflexivity.
  - left. reflexivity.
Qed.

(** C7 (amended): no replacement name in any remap table is a reserved
    keyword, so the text [Obfuscator.resolve] returns is a reserved
    keyword only when it is the occurrence's own original text. *)
Theorem finalize_never_emits_reserved (og : bool) (rk : list string)
  (evs : list Event) (o : Obfuscator) :
  prewalk_hook og rk evs = inr o ->
  (forall j sc k v, nth_error (store o) j = Some sc ->
     In (k, v) (remapped_symbols sc) -> ~ In v rk) /\
  (forall n, In (resolve o n) rk -> resolve o n = value n).
Proof.
  intros H. destruct (prewalk_hook_inv _ _ _ _ H)
    as [o1 [s1 [_ [Hwf [Hc [Hst _]]]]]].
  destruct (close_global_shape _ _ Hwf Hc) as [_ Hsh1].
  assert (Hnr : forall j sc k v, nth_error (store o) j = Some sc ->
                In (k, v) (remapped_symbols sc) -> ~ In v rk).
  { rewrite Hst. apply build_remap_not_reserved.
    intros j sc k v Hj Hin. rewrite (proj1 (Hsh1 _ _ Hj)) in Hin. destruct Hin. }
  split; [exact Hnr|]. intros n. unfold resolve.
  destruct (dict_get Nat.eqb (identifiers o) (occ_id n)) as [i|]; [|auto].
  unfold Scope_resolve.
  destruct (resolve_loop (length (store o)) (store o) (Some i) (value n))
    as [v|] eqn:Ev; [|auto].
  destruct (String.eqb v EmptyString); [auto|]. intros Hin. exfalso.
  apply resolve_loop_found in Ev as [j [sc [Hj Hkv]]].
  exact (Hnr _ _ _ _ Hj Hkv Hin).
Qed.

(** C7, as stated, fails: with [reserved_keywords = ["window"]], the
    global [window] resolves to itself, a reserved keyword. *)
Lemma reserved_global_resolves_to_itself :
  match prewalk_hook false ["window"%string] global_window with
  | inr o => In (resolve o (occ 1 "window")) ["window"%string]
  | inl _ => False
  end.
Proof. vm_compute. left. reflexivity. Qed.

(** ** The identifiers table *)

Lemma handle_identifiers o e o' id :
  handle o e = inr o' ->
  (forall m, e = Resolve m -> occ_id m <> id) ->
  dict_get Nat.eqb (identifiers o') id = dict_get Nat.eqb (identifiers o) id.
Proof.
  destruct e as [nd | nd | n | n]; simpl;
    unfold push_scope, pop_scope, declare, reference, current_scope;
    destruct (stack o) as [|i rest]; simpl; try discriminate.
  - intros H _. injection H as <-. reflexivity.
  - destruct (Scope_close (store o) i); simpl; [discriminate|].
    intros H _. injection H as <-. reflexivity.
  - intros H _. injection H as <-. reflexivity.
  - intros H Hne. injection H as <-. simpl.
    rewrite (dict_get_set Nat.eqb nat_eqb_spec).
    destruct (Nat.eqb_spec id (occ_id n)) as [-> | _]; [|reflexivity].
    exfalso. exact (Hne n eq_refl eq_refl).
Qed.

Lemma walk_identifiers o evs o' id :
  referenced_in evs id = false -> walk o evs = inr o' ->
  dict_get Nat.eqb (identifiers o') id = dict_get Nat.eqb (identifiers o) id.
Proof.
  revert o. induction evs as [|e evs IH]; intros o Href; simpl.
  - intros H. injection H as <-. reflexivity.
  - unfold referenced_in in Href. simpl in Href.
    apply orb_false_iff in Href as [He Hrest].
    destruct (handle o e) as [err|o1] eqn:Hh; simpl; [discriminate|].
    intros Hw. rewrite (IH o1 Hrest Hw). apply (handle_identifiers _ _ _ _ Hh).
    intros m -> Heq. subst id. rewrite Nat.eqb_refl in He. discriminate.
Qed.

(** C9: an identifier node that only ever had a [Declare] event (no
    [Resolve]) is absent from the [identifiers] table after the run, and
    [Obfuscator.resolve] returns its original text. *)
Theorem declared_only_occurrence_unchanged (og : bool) (rk : list string)
  (evs : list Event) (o : Obfuscator) (n : Occurrence) :
  referenced_in evs (occ_id n) = false ->
  prewalk_hook og rk evs = inr o ->
  dict_get Nat.eqb (identifiers o) (occ_id n) = None /\ resolve o n = value n.
Proof.
  intros Href H. destruct (prewalk_hook_inv _ _ _ _ H)
    as [o1 [s1 [Hw [_ [_ [_ Hid]]]]]].
  assert (Hnone : dict_get Nat.eqb (identifiers o) (occ_id n) = None).
  { rewrite Hid, (walk_identifiers _ _ _ _ Href Hw). reflexivity. }
  split; [exact Hnone|]. unfold resolve. rewrite Hnone. reflexivity.
Qed.

(** The binding occurrence of [x] in [declared_parameter] renders as
    [x], while its use renders as the replacement [a]. *)
Lemma declared_only_occurrence_unchanged_witness :
  referenced_in declared_parameter 2 = false /\
  match prewalk_hook false [] declared_parameter with
  | inr o => resolve o (occ 2 "x") = "x"%string /\
             resolve o (occ 3 "x") = "a"%string
  | inl _ => False
  end.
Proof.
  split; [reflexivity|].
  destruct (prewalk_hook false [] declared_parameter) as [e|o] eqn:E.
  - vm_compute in E. discriminate.
  - split.
    + exact (proj2 (declared_only_occurrence_unchanged false []
                      declared_parameter o (occ 2 "x") eq_refl E)).
    + vm_compute in E. injection E as <-. vm_compute. reflexivity.
Defined.

(** C10: [pop_scope] never reads its [node] argument: on any state
    reached by the walk with scope [i] on top of the stack, popping with
    any two nodes gives the same result, and that result is a success
    whatever node is passed: [i] (which was open) is removed from the
    stack and closed by [Scope.close], it is now marked closed, and no
    other scope, nor the [identifiers] or [scopes] tables, changes. *)
Theorem pop_scope_ignores_node (og : bool) (rk : list string)
  (evs : list Event) (o : Obfuscator) (i : nat) (rest : list nat) :
  walk (Obfuscator_init og rk) evs = inr o -> stack o = i :: rest ->
  forall n1 n2, pop_scope o n1 = pop_scope o n2 /\
    exists o', pop_scope o n1 = inr o' /\ stack o' = rest /\
      closed_at (store o) i = false /\
      Scope_close (store o) i = inr (store o') /\
      closed_at (store o') i = true /\
      (forall j, j <> i -> nth_error (store o') j = nth_error (store o) j) /\
      identifiers o' = identifiers o /\ scopes o' = scopes o.
Proof.
  intros Hw Est n1 n2. split; [reflexivity|].
  destruct (wf_walk _ _ _ (wf_init og rk) Hw) as [_ [_ [Hopen _]]].
  rewrite Est in Hopen.
  destruct (Hopen i (or_introl eq_refl)) as [sc [Hsc Hcl]].
  unfold pop_scope. rewrite Est. unfold Scope_close. rewrite Hsc, Hcl.
  simpl. eexists. split; [reflexivity|]. simpl.
  split; [reflexivity|]. split; [unfold closed_at; rewrite Hsc; exact Hcl|].
  split; [reflexivity|]. split.
  - unfold closed_at. rewrite (nth_error_store_set_same _ _ _ _ Hsc). reflexivity.
  - split; [|split; reflexivity].
    intros j Hne. apply nth_error_store_set_other. auto.
Qed.

(** Exiting with the node of the outer scope while the inner one is on
    top is accepted, and closes the inner one. *)
Lemma pop_scope_ignores_node_witness :
  match walk (Obfuscator_init false []) two_open_scopes with
  | inr o => pop_scope o 100 = pop_scope o 101 /\
             exists o', pop_scope o 100 = inr o' /\ stack o' = [1; 0] /\
                        closed_at (store o') 2 = true
  | inl _ => False
  end.
Proof.
  destruct (walk (Obfuscator_init false []) two_open_scopes) as [e|o] eqn:E.
  - vm_compute in E. discriminate.
  - assert (Hst : stack o = [2; 1; 0])
      by (pose proof E as E'; vm_compute in E'; injection E' as <-; reflexivity).
    destruct (pop_scope_ignores_node false [] two_open_scopes o 2 [1; 0] E Hst
                100 101) as [Heq [o' [H1 [H2 [_ [_ [H3 _]]]]]]].
    split; [exact Heq|]. exists o'. auto.
Defined.

(** ** The closed flag *)

(** C2 (amended): [close()] on a closed scope fails with [ValueError];
    [declare] and [reference] do not look at the flag: with a closed
    scope on top of the stack they succeed and update it exactly as an
    open one, and it stays closed. *)
Theorem closed_scope_accepts_declare_reference (o : Obfuscator)
  (n : Occurrence) (i : nat) (rest : list nat) (sc : Scope) :
  stack o = i :: rest -> nth_error (store o) i = Some sc -> closed sc = true ->
  Scope_close (store o) i = inl (ValueError "scope is already marked as closed") /\
  (exists o', declare o n = inr o' /\
     nth_error (store o') i = Some (Scope_declare sc (value n)) /\
     closed (Scope_declare sc (value n)) = true /\
     In (value n) (local_declared_symbols (Scope_declare sc (value n)))) /\
  (exists o', reference o n = inr o' /\
     nth_error (store o') i = Some (Scope_reference sc (value n)) /\
     closed (Scope_reference sc (value n)) = true /\
     dict_get_default String.eqb
       (referenced_symbols (Scope_reference sc (value n))) (value n) 0 =
     dict_get_default String.eqb (referenced_symbols sc) (value n) 0 + 1).
Proof.
  intros Est Hsc Hcl. split; [|split].
  - unfold Scope_close. rewrite Hsc, Hcl. reflexivity.
  - unfold declare, current_scope. rewrite Est. simpl. eexists.
    split; [reflexivity|]. simpl. unfold store_update. rewrite Hsc.
    split; [eapply nth_error_store_set_same; exact Hsc|].
    split; [exact Hcl|]. simpl. unfold set_add.
    destruct (mem (value n) (local_declared_symbols sc)) eqn:Em.
    + apply mem_In, Em.
    + apply in_or_app. right. now left.
  - unfold reference, current_scope. rewrite Est. simpl. eexists.
    split; [reflexivity|]. simpl. unfold store_update. rewrite Hsc.
    split; [eapply nth_error_store_set_same; exact Hsc|].
    split; [exact Hcl|]. simpl.
    rewrite (dict_get_default_set String.eqb string_eqb_spec), String.eqb_refl.
    reflexivity.
Qed.

(** After finalize the global scope is closed and still on the stack. *)
Lemma closed_scope_accepts_declare_reference_witness :
  match prewalk_hook false [] [] with
  | inr o => exists o', declare o (occ 1 "z") = inr o'
  | inl _ => False
  end.
Proof.
  destruct (prewalk_hook false [] []) as [e|o] eqn:E.
  - vm_compute in E. discriminate.
  - assert (Hst : stack o = [global_scope])
      by (vm_compute in E; injection E as <-; reflexivity).
    assert (Hsc : nth_error (store o) global_scope =
                  Some (set_closed (Scope_new None None) true))
      by (vm_compute in E; injection E as <-; reflexivity).
    destruct (proj1 (proj2 (closed_scope_accepts_declare_reference o
                (occ 1 "z") global_scope [] _ Hst Hsc eq_refl)))
      as [o' [Hd _]].
    exists o'. exact Hd.
Defined.

(** C2, as stated, fails: after finalize has closed the global scope,
    [declare] and [reference] on it raise nothing. *)
Lemma declare_after_close_accepted :
  match prewalk_hook false [] [] with
  | inr o =>
      (exists sc, nth_error (store o) global_scope = Some sc /\
                  closed sc = true) /\
      (exists o', declare o (occ 1 "z") = inr o') /\
      (exists o', reference o (occ 1 "z") = inr o')
  | inl _ => False
  end.
Proof.
  vm_compute. split; [|split]; eexists; [split|..]; reflexivity.
Qed.

(** ** Unbalanced traversals *)

(** C3 (amended): [pop_scope] on an empty stack fails ([IndexError] of
    [list.pop]); with only one open scope on the stack (the global scope
    included) it pops and closes it without error, leaving the stack
    empty; [finalize] never looks at the stack; it fails with
    [ValueError] when the global scope is already closed, and otherwise
    succeeds, whatever scopes are still open on the stack, leaving the
    stack and the identifiers as they were. *)
Theorem pop_scope_finalize_unchecked (o : Obfuscator) (n : nat) :
  (stack o = [] -> pop_scope o n = inl (IndexError "pop from empty list")) /\
  (forall r sc, stack o = [r] -> nth_error (store o) r = Some sc ->
     closed sc = false ->
     exists o', pop_scope o n = inr o' /\ stack o' = [] /\
                closed_at (store o') r = true) /\
  (forall sc, nth_error (store o) global_scope = Some sc -> closed sc = true ->
     finalize o = inl (ValueError "scope is already marked as closed")) /\
  (forall sc, nth_error (store o) global_scope = Some sc -> closed sc = false ->
     exists o', finalize o = inr o' /\ stack o' = stack o /\
                identifiers o' = identifiers o) /\
  (forall st, finalize (set_state o (identifiers o) (scopes o) st (store o)) =
     (o' <- finalize o ;;
      inr (set_state o' (identifiers o') (scopes o') st (store o')))).
Proof.
  split; [|split; [|split; [|split]]].
  - intros Est. unfold pop_scope. rewrite Est. reflexivity.
  - intros r sc Est Hsc Hcl. unfold pop_scope. rewrite Est.
    unfold Scope_close. rewrite Hsc, Hcl. simpl. eexists.
    split; [reflexivity|]. split; [reflexivity|].
    unfold closed_at. simpl. rewrite (nth_error_store_set_same _ _ _ _ Hsc).
    reflexivity.
  - intros sc Hsc Hcl. unfold finalize, Scope_close. rewrite Hsc, Hcl.
    reflexivity.
  - intros sc Hsc Hcl. unfold finalize, Scope_close. rewrite Hsc, Hcl.
    simpl. eexists. split; [reflexivity|]. split; reflexivity.
  - intros st. unfold finalize. simpl.
    destruct (Scope_close (store o) global_scope); reflexivity.
Qed.

(** Popping the global scope of a fresh obfuscator succeeds and closes
    it; finalizing a walk that left a scope open succeeds. *)
Lemma pop_scope_finalize_unchecked_witness :
  (exists o', pop_scope (Obfuscator_init false []) 7 = inr o' /\ stack o' = [] /\
              closed_at (store o') global_scope = true) /\
  (exists o', finalize (Obfuscator_init false []) = inr o' /\
              stack o' = [global_scope]).
Proof.
  split.
  - apply (proj1 (proj2 (pop_scope_finalize_unchecked
                           (Obfuscator_init false []) 7))
             global_scope (Scope_new None None)); reflexivity.
  - destruct (proj1 (proj2 (proj2 (proj2 (pop_scope_finalize_unchecked
                (Obfuscator_init false []) 7))))
                (Scope_new None None) eq_refl eq_refl) as [o' [H1 [H2 _]]].
    exists o'. split; [exact H1 | exact H2].
Defined.

(** C3, as stated, fails: a scope exit with only the global scope on the
    stack raises nothing, and neither does finalizing a walk that left a
    scope open. *)
Lemma unbalanced_traversal_accepted :
  (exists o', pop_scope (Obfuscator_init false []) 100 = inr o' /\
              stack o' = []) /\
  (exists o', prewalk_hook false [] [PushScope 100] = inr o' /\
              length (stack o') = 2).
Proof.
  split; eexists; split; reflexivity.
Qed.

(** ** Scope.close: merging the children's leaks *)

Lemma fold_add_count l acc k :
  dict_get_default String.eqb (fold_left add_count l acc) k 0 =
  dict_get_default String.eqb acc k 0 +
  list_sum (map snd (filter (fun kv => String.eqb (fst kv) k) l)).
Proof.
  revert acc. induction l as [|[k1 v1] l IH]; intros acc; simpl.
  - lia.
  - rewrite IH. unfold add_count. simpl.
    rewrite (dict_get_default_set String.eqb string_eqb_spec).
    destruct (String.eqb_spec k k1) as [-> | Hne].
    + rewrite String.eqb_refl. simpl. lia.
    + destruct (String.eqb_spec k1 k) as [-> | _]; [contradiction|]. lia.
Qed.

Lemma merge_children_count s cs r k :
  dict_get_default String.eqb (merge_children s cs r) k 0 =
  dict_get_default String.eqb r k 0 + children_leaked_count s cs k.
Proof.
  unfold merge_children, children_leaked_count.
  revert r. induction cs as [|c cs IH]; intros r; simpl.
  - lia.
  - rewrite IH. destruct (nth_error s c) as [ch|]; [|lia].
    rewrite fold_add_count. unfold leaked_count. lia.
Qed.

(** C5 (amended): closing an open scope succeeds and marks it closed;
    for every symbol [k] its new count is its old count (0 if absent)
    plus the sum, over all its children, of the count the child leaks
    for [k] (so entries no child leaks are unchanged); its other fields
    and every other scope are unchanged. *)
Theorem Scope_close_merges_leaks (s : Store) (i : nat) (sc : Scope) :
  nth_error s i = Some sc -> closed sc = false ->
  exists s' sc', Scope_close s i = inr s' /\ nth_error s' i = Some sc' /\
    closed sc' = true /\
    (forall k, dict_get_default String.eqb (referenced_symbols sc') k 0 =
               dict_get_default String.eqb (referenced_symbols sc) k 0 +
               children_leaked_count s (children sc) k) /\
    node sc' = node sc /\ parent sc' = parent sc /\
    children sc' = children sc /\
    local_declared_symbols sc' = local_declared_symbols sc /\
    remapped_symbols sc' = remapped_symbols sc /\
    (forall j, j <> i -> nth_error s' j = nth_error s j).
Proof.
  intros Hsc Hcl. unfold Scope_close. rewrite Hsc, Hcl.
  eexists. eexists. split; [reflexivity|].
  split; [eapply nth_error_store_set_same; exact Hsc|].
  simpl. split; [reflexivity|]. split.
  - intros k. apply merge_children_count.
  - repeat split; try reflexivity.
    intros j Hj. apply nth_error_store_set_other. auto.
Qed.

(** Closing the global scope of [two_leaking_functions]: both closed
    children leak [a] once, and the global count of [a] becomes 2. *)
Lemma Scope_close_merges_leaks_witness :
  exists s' sc',
    Scope_close
      [mkScope false None None [1; 2] [] [] [];
       mkScope true (Some 100) (Some 0) [] [("a"%string, 1)] [] [];
       mkScope true (Some 101) (Some 0) [] [("a"%string, 1)] [] []]
      global_scope = inr s' /\
    nth_error s' global_scope = Some sc' /\ closed sc' = true /\
    dict_get_default String.eqb (referenced_symbols sc') "a"%string 0 = 2.
Proof.
  destruct (Scope_close_merges_leaks
      [mkScope false None None [1; 2] [] [] [];
       mkScope true (Some 100) (Some 0) [] [("a"%string, 1)] [] [];
       mkScope true (Some 101) (Some 0) [] [("a"%string, 1)] [] []]
      global_scope (mkScope false None None [1; 2] [] [] [])
      eq_refl eq_refl)
    as [s' [sc' [Hc [Hs [Hcl [Hk _]]]]]].
  exists s', sc'. split; [exact Hc|]. split; [exact Hs|].
  split; [exact Hcl|]. rewrite Hk. vm_compute. reflexivity.
Defined.

(** C5, as stated for each child on its own, fails: after collecting
    [two_leaking_functions], the global scope has two closed children
    that each leak [a] once; closing it sets its count for [a] to 2, not
    to its previous count 0 plus the first child's count 1. *)
Lemma close_sums_over_children :
  match walk (Obfuscator_init false []) two_leaking_functions with
  | inr o =>
      exists sc ch s' sc',
        nth_error (store o) global_scope = Some sc /\ In 1 (children sc) /\
        nth_error (store o) 1 = Some ch /\ closed ch = true /\
        dict_get String.eqb (leaked_referenced_symbols ch) "a"%string = Some 1 /\
        Scope_close (store o) global_scope = inr s' /\
        nth_error s' global_scope = Some sc' /\
        dict_get_default String.eqb (referenced_symbols sc') "a"%string 0 <>
        dict_get_default String.eqb (referenced_symbols sc) "a"%string 0 + 1
  | inl _ => False
  end.
Proof.
  vm_compute. do 4 eexists.
  split; [reflexivity|]. split; [left; reflexivity|].
  split; [reflexivity|]. split; [reflexivity|]. split; [reflexivity|].
  split; [reflexivity|]. split; [reflexivity|]. discriminate.
Qed.

(** ** The order of one scope's remap step *)

Lemma In_insert_by_count x p l :
  In x (insert_by_count p l) <-> x = p \/ In x l.
Proof.
  induction l as [|q l IH]; simpl; [intuition congruence|].
  destruct (snd p <? snd q); simpl; rewrite ?IH; intuition congruence.
Qed.

Lemma insert_by_count_sorted p l :
  StronglySorted (fun a b => snd a <= snd b) l ->
  StronglySorted (fun a b => snd a <= snd b) (insert_by_count p l).
Proof.
  induction 1 as [|q l H IH HF]; simpl.
  - repeat constructor.
  - destruct (Nat.ltb_spec (snd p) (snd q)).
    + constructor; [constructor; assumption|].
      rewrite Forall_forall in *. intros y [<- | Hy]; [lia|].
      specialize (HF y Hy). lia.
    + constructor; [exact IH|]. rewrite Forall_forall in *.
      intros y Hy. apply In_insert_by_count in Hy as [-> | Hy]; [lia | auto].
Qed.

Lemma sort_by_count_In x l : In x (sort_by_count l) <-> In x l.
Proof.
  unfold sort_by_count.
  assert (G : forall acc, In x (fold_left (fun acc p => insert_by_count p acc) l acc)
                          <-> In x acc \/ In x l).
  { induction l as [|p l IH]; intros acc; simpl; [tauto|].
    rewrite IH, In_insert_by_count. intuition congruence. }
  rewrite G. simpl. tauto.
Qed.

Lemma sort_by_count_sorted l :
  StronglySorted (fun a b => snd a <= snd b) (sort_by_count l).
Proof.
  unfold sort_by_count.
  assert (G : forall acc, StronglySorted (fun a b => snd a <= snd b) acc ->
     StronglySorted (fun a b => snd a <= snd b)
       (fold_left (fun acc p => insert_by_count p acc) l acc)).
  { induction l as [|p l IH]; intros acc Hacc; simpl; [exact Hacc|].
    apply IH, insert_by_count_sorted, Hacc. }
  apply G. constructor.
Qed.

Lemma StronglySorted_rev {A} (R : A -> A -> Prop) (l : list A) :
  StronglySorted R l -> StronglySorted (fun a b => R b a) (rev l).
Proof.
  induction 1 as [|a l H IH HF]; simpl; [constructor|].
  apply StronglySorted_app; [exact IH | repeat constructor |].
  intros x y Hx [<- | []]. rewrite Forall_forall in HF.
  apply HF. rewrite <- in_rev in Hx. exact Hx.
Qed.

Lemma In_combine_nth {A B} (l1 : list A) (l2 : list B) a b :
  In (a, b) (combine l1 l2) ->
  exists j, nth_error l1 j = Some a /\ nth_error l2 j = Some b.
Proof.
  revert l2. induction l1 as [|x l1 IH]; intros l2 H;
    destruct l2 as [|y l2]; simpl in H; try contradiction.
  destruct H as [E | H].
  - injection E as -> ->. exists 0. auto.
  - destruct (IH l2 H) as [j Hj]. exists (S j). exact Hj.
Qed.

(** The symbols named by one remap step, with their counts. *)
Lemma remap_order_nth sc j k :
  NoDup (map fst (referenced_symbols sc)) ->
  nth_error (remap_order sc) j = Some k ->
  nth_error (filter (fun kv => mem (fst kv) (local_declared_symbols sc))
               (rev (sort_by_count (referenced_symbols sc)))) j =
    Some (k, dict_get_default String.eqb (referenced_symbols sc) k 0).
Proof.
  intros Hnd Hj. unfold remap_order in Hj. rewrite nth_error_map in Hj.
  destruct (nth_error _ j) as [[k' c]|] eqn:Ej; simpl in Hj; [|discriminate].
  injection Hj as <-. f_equal. f_equal.
  apply nth_error_In in Ej. apply filter_In in Ej as [Ein _].
  rewrite <- in_rev, sort_by_count_In in Ein.
  unfold dict_get_default.
  rewrite (In_dict_get String.eqb string_eqb_spec _ _ _ Hnd Ein). reflexivity.
Qed.

Lemma remap_order_sorted sc :
  StronglySorted (fun a b => snd b <= snd a)
    (filter (fun kv => mem (fst kv) (local_declared_symbols sc))
       (rev (sort_by_count (referenced_symbols sc)))).
Proof.
  apply StronglySorted_filter.
  apply (StronglySorted_rev (fun a b => snd a <= snd b)).
  apply sort_by_count_sorted.
Qed.

(** C6: in one scope's remap step, a declared symbol with a strictly
    higher reference count never gets a strictly longer name than
    another declared symbol (the keys of [referenced_symbols] being
    those of a dict, without duplicates). *)
Theorem remap_frequency_priority (ng : NameGenerator) (s : Store) (i : nat)
  (sc : Scope) (s1 s2 n1 n2 : string) :
  NoDup (map fst (referenced_symbols sc)) ->
  In (s1, n1) (remap_pairs ng s i sc) ->
  In (s2, n2) (remap_pairs ng s i sc) ->
  dict_get_default String.eqb (referenced_symbols sc) s2 0 <
  dict_get_default String.eqb (referenced_symbols sc) s1 0 ->
  String.length n1 <= String.length n2.
Proof.
  intros Hnd H1 H2 Hlt. unfold remap_pairs in H1, H2.
  apply In_combine_nth in H1 as [j1 [O1 N1]].
  apply In_combine_nth in H2 as [j2 [O2 N2]].
  pose proof (remap_order_nth _ _ _ Hnd O1) as F1.
  pose proof (remap_order_nth _ _ _ Hnd O2) as F2.
  destruct (lt_eq_lt_dec j1 j2) as [[Hj | ->] | Hj].
  - exact (StronglySorted_nth_error _ _ _ _ _ _ (take_names_sorted _ _) Hj N1 N2).
  - rewrite O1 in O2. injection O2 as ->. lia.
  - pose proof (StronglySorted_nth_error _ _ _ _ _ _ (remap_order_sorted sc) Hj F2 F1)
      as Hle.
    simpl in Hle. lia.
Qed.

(** A scope referencing [y] five times and [x] once: [y] is named
    first, with [a], and [x] gets [b]. *)
Lemma remap_frequency_priority_witness :
  let sc := mkScope false None None [] [("x"%string, 1); ("y"%string, 5)]
              ["x"%string; "y"%string] [] in
  remap_pairs (NameGenerator_init [] ID_CHARS) [sc] 0 sc =
    [("y"%string, "a"%string); ("x"%string, "b"%string)] /\
  String.length "a" <= String.length "b".
Proof.
  intros sc. split; [vm_compute; reflexivity|].
  apply (remap_frequency_priority (NameGenerator_init [] ID_CHARS) [sc] 0 sc
           "y" "x" "a" "b").
  - vm_compute. repeat constructor; simpl; intuition discriminate.
  - vm_compute. left. reflexivity.
  - vm_compute. right. left. reflexivity.
  - vm_compute. lia.
Defined.

(** ** Nested scopes: remap exclusion consults only the parent *)

(** C1 (code bug): for [nested_program], i.e.
    [function f(x){ function g(){ function h(y){ return x + y; } } }]
    under the default configuration, the occurrences [x] and [y] of
    [return x + y] are both recorded in the scope of [h], where two
    distinct bindings are visible: [x] of [f] (declared in [f]'s scope,
    in neither [g]'s nor [h]'s) and [y] of [h].  Both resolve to [a],
    so the output reads [a + a]: [h]'s exclusion set sees only [g]'s
    remap table, which lacks [x]. *)
Theorem nested_scopes_collide :
  match prewalk_hook false [] nested_program with
  | inr o =>
      exists sc1 sc2 sc3,
        nth_error (store o) 1 = Some sc1 /\
        nth_error (store o) 2 = Some sc2 /\
        nth_error (store o) 3 = Some sc3 /\
        parent sc3 = Some 2 /\ parent sc2 = Some 1 /\
        In "x"%string (local_declared_symbols sc1) /\
        ~ In "x"%string (local_declared_symbols sc2) /\
        ~ In "x"%string (local_declared_symbols sc3) /\
        In "y"%string (local_declared_symbols sc3) /\
        dict_get Nat.eqb (identifiers o) 6 = Some 3 /\
        dict_get Nat.eqb (identifiers o) 7 = Some 3 /\
        resolve o (occ 6 "x") = "a"%string /\
        resolve o (occ 7 "y") = "a"%string
  | inl _ => False
  end.
Proof.
  vm_compute. do 3 eexists.
  repeat split; try reflexivity; simpl; intuition discriminate.
Qed.

(** ** Runs of the theorems on concrete inputs *)

(** Over the alphabet [ab] with [a] excluded, the first three names
    drawn are [b], [aa], [ab], the first three of the names up to
    length 4. *)
Lemma NameGenerator_enumeration_witness :
  take_names (NameGenerator_init ["a"%string] ["a"%char; "b"%char]) 3 =
    firstn 3 (iter_upto (NameGenerator_init ["a"%string] ["a"%char; "b"%char]) 4) /\
  take_names (NameGenerator_init ["a"%string] ["a"%char; "b"%char]) 3 =
    ["b"%string; "aa"%string; "ab"%string].
Proof.
  assert (Hnd : NoDup ["a"%char; "b"%char])
    by (repeat constructor; simpl; intuition discriminate).
  destruct (NameGenerator_enumeration ["a"%string] ["a"%char; "b"%char] Hnd)
    as [_ [_ [_ H]]].
  split.
  - apply (H ltac:(discriminate) 3 4). simpl. lia.
  - vm_compute. reflexivity.
Defined.

(** In [sibling_functions], the global scope's remap table is empty and
    the [x] of the second function, free there, stays [x]. *)
Lemma finalize_default_keeps_globals_witness :
  match prewalk_hook false [] sibling_functions with
  | inr o => (exists r, nth_error (store o) global_scope = Some r /\
                        remapped_symbols r = []) /\
             resolve o (occ 2 "x") = "x"%string
  | inl _ => False
  end.
Proof.
  destruct (prewalk_hook false [] sibling_functions) as [e|o] eqn:E.
  - vm_compute in E. discriminate.
  - destruct (finalize_default_keeps_globals [] sibling_functions o E)
      as [Hr [_ [_ Hocc]]].
    split; [exact Hr|]. apply (Hocc (occ 2 "x") 2).
    + vm_compute in E. injection E as <-. vm_compute. reflexivity.
    + vm_compute in E. injection E as <-. vm_compute. left. reflexivity.
Defined.

(** With [reserved_keywords = ["a"]], the parameter [x] of
    [declared_parameter] is renamed [b], not the reserved [a]. *)
Lemma finalize_never_emits_reserved_witness :
  match prewalk_hook false ["a"%string] declared_parameter with
  | inr o => exists sc, nth_error (store o) 1 = Some sc /\
               In ("x"%string, "b"%string) (remapped_symbols sc) /\
               ~ In "b"%string ["a"%string]
  | inl _ => False
  end.
Proof.
  destruct (prewalk_hook false ["a"%string] declared_parameter) as [e|o] eqn:E.
  - vm_compute in E. discriminate.
  - destruct (finalize_never_emits_reserved false ["a"%string] declared_parameter o E)
      as [Hnr _].
    destruct (nth_error (store o) 1) as [sc|] eqn:Hsc.
    + assert (Hin : In ("x"%string, "b"%string) (remapped_symbols sc)).
      { vm_compute in E. injection E as <-. vm_compute in Hsc.
        injection Hsc as <-. left. reflexivity. }
      exists sc. split; [reflexivity|]. split; [exact Hin|].
      exact (Hnr _ _ _ _ Hsc Hin).
    + vm_compute in E. injection E as <-. vm_compute in Hsc. discriminate.
Defined.

(* ------------------------------------------------------------------ *)
(** ** The scope tree the walk builds *)

Lemma In_keys_dict_set {V} (d : list (string * V)) k v x :
  In x (map fst (dict_set String.eqb d k v)) <-> x = k \/ In x (map fst d).
Proof.
  induction d as [|[k1 v1] d IH]; simpl; [intuition congruence|].
  destruct (String.eqb_spec k k1) as [-> | Hne]; simpl.
  - intuition congruence.
  - rewrite IH. intuition congruence.
Qed.

Lemma merge_children_keys s cs r x :
  In x (map fst r) -> In x (map fst (merge_children s cs r)).
Proof.
  unfold merge_children. revert r. induction cs as [|c cs IH]; simpl; auto.
  intros r H. apply IH. destruct (nth_error s c) as [ch|]; [|exact H].
  generalize (leaked_referenced_symbols ch) as l. intros l.
  revert r H. induction l as [|kv l IHl]; simpl; auto.
  intros r H. apply IHl. unfold add_count. apply In_keys_dict_set. now right.
Qed.

Lemma NoDup_snoc {A} (l : list A) x : NoDup l -> ~ In x l -> NoDup (l ++ [x]).
Proof.
  induction 1 as [|a l Ha Hnd IH]; simpl; intros Hx.
  - repeat constructor. intros [].
  - constructor; [|apply IH; tauto].
    intros Hin. apply in_app_or in Hin as [Hin | [-> | []]]; tauto.
Qed.

Lemma stack_chain_transfer s s' st :
  (forall i sc, nth_error s i = Some sc ->
     exists sc', nth_error s' i = Some sc' /\ parent sc' = parent sc) ->
  stack_chain s st -> stack_chain s' st.
Proof.
  intros H. induction st as [|i st IH]; simpl; auto.
  destruct st as [|p st']; [auto|]. intros [[sc [Hs Hp]] Hc].
  split; [|apply IH, Hc]. destruct (H _ _ Hs) as [sc' [Hs' Hp']].
  exists sc'. split; congruence.
Qed.

Lemma stack_chain_cons s i p st :
  (exists sc, nth_error s i = Some sc /\ parent sc = Some p) ->
  stack_chain s (p :: st) -> stack_chain s (i :: p :: st).
Proof. intros H1 H2. exact (conj H1 H2). Qed.

Lemma stack_chain_tl s i st : stack_chain s (i :: st) -> stack_chain s st.
Proof. destruct st; simpl; tauto. Qed.

(** A store change that keeps every scope's links and node, and the
    declared symbols inside the counted ones, keeps the tree. *)
Lemma tree_transport o o' :
  tree_state o -> scopes o' = scopes o ->
  stack_chain (store o) (stack o') ->
  (forall j sc, nth_error (store o) j = Some sc ->
     exists sc', nth_error (store o') j = Some sc' /\ parent sc' = parent sc /\
       children sc' = children sc /\ node sc' = node sc) ->
  (forall j sc', nth_error (store o') j = Some sc' ->
     exists sc, nth_error (store o) j = Some sc /\ parent sc' = parent sc /\
       children sc' = children sc /\
       (incl (local_declared_symbols sc) (map fst (referenced_symbols sc)) ->
        incl (local_declared_symbols sc') (map fst (referenced_symbols sc')))) ->
  tree_state o'.
Proof.
  intros [[r [Hr Hrp]] [Hsc [_ Hscopes]]] Hsco Hst Hfwd Hbwd.
  split; [|split; [|split]].
  - destruct (Hfwd _ _ Hr) as [r' [Hr' [Hp _]]]. exists r'. split; congruence.
  - intros j sc' Hj'. destruct (Hbwd _ _ Hj') as [sc [Hj [Hp [Hc Hincl]]]].
    destruct (Hsc _ _ Hj) as [H1 [H2 [H3 H4]]].
    split; [|split; [|split]].
    + intros Hne. destruct (H1 Hne) as [p [psc [Hpp [Hlt [Hps Hin]]]]].
      destruct (Hfwd _ _ Hps) as [psc' [Hps' [_ [Hpc _]]]].
      exists p, psc'. rewrite Hp, Hpc. auto.
    + rewrite Hc. exact H2.
    + intros c Hcin. rewrite Hc in Hcin.
      destruct (H3 c Hcin) as [Hlt [csc [Hcs Hcp]]].
      destruct (Hfwd _ _ Hcs) as [csc' [Hcs' [Hcp' _]]].
      split; [exact Hlt|]. exists csc'. rewrite Hcp'. auto.
    + exact (Hincl H4).
  - eapply stack_chain_transfer; [|exact Hst].
    intros i sc Hs. destruct (Hfwd _ _ Hs) as [sc' [? [? _]]]. eauto.
  - rewrite Hsco. intros nd j H. destruct (Hscopes nd j H) as [sc [Hs Hn]].
    destruct (Hfwd _ _ Hs) as [sc' [Hs' [_ [_ Hn']]]].
    exists sc'. split; congruence.
Qed.

Lemma tree_store_update o ids cur f :
  tree_state o ->
  (forall sc, parent (f sc) = parent sc /\ children (f sc) = children sc /\
     node (f sc) = node sc /\
     (incl (local_declared_symbols sc) (map fst (referenced_symbols sc)) ->
      incl (local_declared_symbols (f sc)) (map fst (referenced_symbols (f sc))))) ->
  tree_state (set_state o ids (scopes o) (stack o) (store_update (store o) cur f)).
Proof.
  intros Ht Hf. apply (tree_transport o); [exact Ht | reflexivity | |  |].
  - simpl. apply Ht.
  - intros j sc Hj. simpl. eexists. split; [apply nth_error_store_update, Hj|].
    destruct (Nat.eqb cur j); [destruct (Hf sc) as [? [? [? _]]]; auto | auto].
  - intros j sc' Hj. simpl in Hj.
    apply nth_error_store_update_inv in Hj as [[-> [y [Hy ->]]] | [_ Hj]].
    + exists y. split; [exact Hy|]. destruct (Hf y) as [? [? [_ ?]]]. auto.
    + exists sc'. auto.
Qed.

Lemma tree_init og rk : tree_state (Obfuscator_init og rk).
Proof.
  unfold tree_state, Obfuscator_init. simpl. split; [|split; [|split]].
  - eexists. split; reflexivity.
  - intros [|j] sc H; simpl in H; [|destruct j; discriminate].
    injection H as <-. simpl. split; [intros []; reflexivity|].
    split; [constructor|]. split; [intros c []|]. intros x [].
  - reflexivity.
  - intros nd j H. discriminate.
Qed.

Lemma tree_handle o e o' :
  wf_state o -> tree_state o -> handle o e = inr o' -> tree_state o'.
Proof.
  intros Hwf Ht. pose proof Hwf as [_ [_ [Hopen _]]].
  assert (Hlt : forall i, In i (stack o) -> i < length (store o)).
  { intros i Hi. destruct (Hopen i Hi) as [sc [Hsc _]].
    apply nth_error_Some. congruence. }
  destruct e as [nd | nd | n | n]; simpl.
  - (* PushScope *)
    unfold push_scope, current_scope, Scope_nest.
    destruct (stack o) as [|cur rest] eqn:Est; simpl; [discriminate|].
    intros H. injection H as <-.
    assert (Hcur : cur < length (store o)) by (apply Hlt; left; reflexivity).
    destruct (nth_error (store o) cur) as [ycur|] eqn:Eycur;
      [|apply nth_error_None in Eycur; lia].
    set (n0 := length (store o)).
    set (g := fun sc => set_children sc (children sc ++ [n0])).
    set (s1 := store_update (store o) cur g).
    assert (Hs1 : length s1 = n0) by apply length_store_update.
    destruct Ht as [[r [Hr Hrp]] [Hsc [Hst Hscopes]]].
    (* scopes of the old store, seen in the new one *)
    assert (Hfwd : forall j sc, nth_error (store o) j = Some sc ->
              nth_error (s1 ++ [Scope_new (Some nd) (Some cur)]) j =
              Some (if Nat.eqb cur j then g sc else sc)).
    { intros j sc Hj. rewrite nth_error_app1.
      - apply nth_error_store_update, Hj.
      - rewrite Hs1. apply nth_error_Some. congruence. }
    assert (Hchild_lt : forall j sc c, nth_error (store o) j = Some sc ->
              In c (children sc) -> c < n0).
    { intros j sc c Hj Hc. destruct (Hsc _ _ Hj) as [_ [_ [H3 _]]].
      destruct (H3 c Hc) as [_ [csc [Hcs _]]].
      apply nth_error_Some. congruence. }
    unfold tree_state, set_state. cbn [store stack scopes].
    split; [|split; [|split]].
    + exists (if Nat.eqb cur 0 then g r else r). split.
      * apply Hfwd, Hr.
      * destruct (Nat.eqb cur 0); exact Hrp.
    + intros j sc' Hj. apply nth_error_snoc_inv in Hj as [[Hjl Hj] | [Hj ->]].
      * rewrite Hs1 in Hjl.
        assert (Hy : exists y, nth_error (store o) j = Some y /\
                  sc' = if Nat.eqb cur j then g y else y).
        { apply nth_error_store_update_inv in Hj as [[-> [y [Hy ->]]] | [Hne Hj]].
          - exists y. rewrite Nat.eqb_refl. auto.
          - exists sc'. split; [exact Hj|].
            destruct (Nat.eqb_spec cur j); [congruence | reflexivity]. }
        destruct Hy as [y [Hy ->]].
        destruct (Hsc _ _ Hy) as [H1 [H2 [H3 H4]]].
        assert (Hpar : parent (if Nat.eqb cur j then g y else y) = parent y)
          by (destruct (Nat.eqb cur j); reflexivity).
        split; [|split; [|split]].
        -- intros Hne. destruct (H1 Hne) as [p [psc [Hpp [Hplt [Hps Hin]]]]].
           exists p, (if Nat.eqb cur p then g psc else psc).
           rewrite Hpar. split; [exact Hpp|]. split; [exact Hplt|].
           split; [apply Hfwd, Hps|].
           destruct (Nat.eqb cur p); simpl; [apply in_or_app; left|]; exact Hin.
        -- destruct (Nat.eqb_spec cur j) as [<- | _]; [|exact H2].
           simpl. apply NoDup_snoc; [exact H2|].
           intros Hin. specialize (Hchild_lt _ _ _ Hy Hin). lia.
        -- intros c Hc.
           assert (Hc' : In c (children y) \/ (j = cur /\ c = n0)).
           { destruct (Nat.eqb_spec cur j) as [<- | _]; [|left; exact Hc].
             simpl in Hc. apply in_app_or in Hc as [Hc | [<- | []]]; auto. }
           destruct Hc' as [Hc' | [-> ->]].
           ++ destruct (H3 c Hc') as [Hjc [csc [Hcs Hcp]]].
              split; [exact Hjc|].
              exists (if Nat.eqb cur c then g csc else csc).
              split; [apply Hfwd, Hcs|]. destruct (Nat.eqb cur c); exact Hcp.
           ++ split; [lia|]. exists (Scope_new (Some nd) (Some cur)).
              split; [|reflexivity].
              rewrite nth_error_app2 by lia. rewrite Hs1, Nat.sub_diag. reflexivity.
        -- destruct (Nat.eqb cur j); exact H4.
      * simpl. split; [|split; [constructor|split; [intros c []|intros x []]]].
        intros _. exists cur, (g ycur). split; [reflexivity|].
        rewrite Hs1 in Hj. subst j. split; [exact Hcur|].
        split.
        -- rewrite (Hfwd _ _ Eycur), Nat.eqb_refl. reflexivity.
        -- simpl. apply in_or_app. right. left. reflexivity.
    + rewrite Est in Hst. apply stack_chain_cons.
      * exists (Scope_new (Some nd) (Some cur)). split; [|reflexivity].
        rewrite nth_error_app2 by lia. rewrite Hs1, Nat.sub_diag. reflexivity.
      * eapply stack_chain_transfer; [|exact Hst].
        intros i sc Hs. rewrite (Hfwd _ _ Hs). eexists. split; [reflexivity|].
        destruct (Nat.eqb cur i); reflexivity.
    + intros nd' j H. rewrite (dict_get_set Nat.eqb nat_eqb_spec) in H.
      destruct (Nat.eqb_spec nd' nd) as [-> | Hne].
      * injection H as <-. exists (Scope_new (Some nd) (Some cur)).
        split; [|reflexivity].
        rewrite nth_error_app2 by lia. rewrite Hs1, Nat.sub_diag. reflexivity.
      * destruct (Hscopes _ _ H) as [sc [Hs Hn]].
        exists (if Nat.eqb cur j then g sc else sc). split; [apply Hfwd, Hs|].
        destruct (Nat.eqb cur j); exact Hn.
  - (* PopScope *)
    unfold pop_scope. destruct (stack o) as [|i rest] eqn:Est; [discriminate|].
    unfold Scope_close. destruct (nth_error (store o) i) as [sc|] eqn:Ei;
      [|discriminate].
    destruct (closed sc) eqn:Ecl; [discriminate|]. simpl.
    intros H. injection H as <-.
    set (f := fun sc0 => set_closed (set_referenced sc0
                (merge_children (store o) (children sc0) (referenced_symbols sc0))) true).
    assert (Hu : store_set (store o) i (f sc) = store_update (store o) i f)
      by (unfold store_update; rewrite Ei; reflexivity).
    unfold f in Hu. rewrite Hu.
    apply (tree_transport o); [exact Ht | reflexivity | | |].
    + simpl. apply (stack_chain_tl _ i). rewrite <- Est. apply Ht.
    + intros j sc0 Hj. simpl. eexists. split; [apply nth_error_store_update, Hj|].
      destruct (Nat.eqb i j); auto.
    + intros j sc' Hj. simpl in Hj.
      apply nth_error_store_update_inv in Hj as [[-> [y [Hy ->]]] | [_ Hj]].
      * exists y. simpl. split; [exact Hy|]. split; [reflexivity|].
        split; [reflexivity|]. intros Hincl x Hx.
        apply merge_children_keys, Hincl, Hx.
      * exists sc'. auto.
  - (* Declare *)
    unfold declare, current_scope. destruct (stack o) as [|cur rest] eqn:Est;
      simpl; [discriminate|].
    intros H. injection H as <-. rewrite <- Est.
    apply tree_store_update; [exact Ht|]. intros sc. simpl.
    split; [reflexivity|]. split; [reflexivity|]. split; [reflexivity|].
    intros Hincl x Hx. apply In_keys_dict_set.
    unfold set_add in Hx. destruct (mem (value n) (local_declared_symbols sc)).
    + right. apply Hincl, Hx.
    + apply in_app_or in Hx as [Hx | [<- | []]]; [right; apply Hincl, Hx | left; reflexivity].
  - (* Resolve *)
    unfold reference, current_scope. destruct (stack o) as [|cur rest] eqn:Est;
      simpl; [discriminate|].
    intros H. injection H as <-. rewrite <- Est.
    apply tree_store_update; [exact Ht|]. intros sc. simpl.
    split; [reflexivity|]. split; [reflexivity|]. split; [reflexivity|].
    intros Hincl x Hx. apply In_keys_dict_set. right. apply Hincl, Hx.
Qed.

Lemma tree_walk o evs o' :
  wf_state o -> tree_state o -> walk o evs = inr o' -> tree_state o'.
Proof.
  revert o. induction evs as [|e evs IH]; intros o Hwf Ht; simpl.
  - intros H. injection H as <-. exact Ht.
  - destruct (handle o e) as [err|o1] eqn:He; simpl; [discriminate|].
    apply IH; [eapply wf_handle; eauto | eapply tree_handle; eauto].
Qed.

Lemma tree_run og rk evs o :
  walk (Obfuscator_init og rk) evs = inr o -> wf_state o /\ tree_state o.
Proof.
  intros H. split.
  - eapply wf_walk; [apply wf_init | exact H].
  - eapply tree_walk; [apply wf_init | apply tree_init | exact H].
Qed.

Lemma stack_chain_nth s st k i :
  stack_chain s st -> nth_error st k = Some i ->
  (nth_error st (S k) = None -> i = global_scope) /\
  (forall p, nth_error st (S k) = Some p ->
     exists sc, nth_error s i = Some sc /\ parent sc = Some p).
Proof.
  revert k. induction st as [|a st IH]; intros k Hc Hk; [destruct k; discriminate|].
  destruct k as [|k].
  - simpl in Hk. injection Hk as ->. destruct st as [|p st'].
    + simpl in Hc. split; [intros _; exact Hc | intros p Hp; discriminate].
    + destruct Hc as [Hp _]. split; [intros H; discriminate|].
      intros p' Hp'. simpl in Hp'. injection Hp' as <-. exact Hp.
  - apply (IH k); [|exact Hk]. exact (stack_chain_tl _ _ _ Hc).
Qed.

Lemma handle_lengths o e o' :
  handle o e = inr o' ->
  length (store o') = length (store o) + count_push [e] /\
  length (stack o') + count_pop [e] = length (stack o) + count_push [e].
Proof.
  unfold count_push, count_pop.
  destruct e as [nd | nd | n | n]; simpl;
    unfold push_scope, pop_scope, declare, reference, current_scope, Scope_nest;
    destruct (stack o) as [|i rest] eqn:Est; simpl; try discriminate.
  - intros H. injection H as <-. simpl. rewrite length_app, length_store_update.
    simpl. lia.
  - destruct (Scope_close (store o) i) as [err|s'] eqn:Ec; simpl; [discriminate|].
    intros H. injection H as <-. simpl.
    destruct (Scope_close_shape _ _ _ Ec) as [Hl _]. lia.
  - intros H. injection H as <-. simpl. rewrite length_store_update.
    simpl. lia.
  - intros H. injection H as <-. simpl. rewrite length_store_update.
    simpl. lia.
Qed.

Lemma walk_lengths o evs o' :
  walk o evs = inr o' ->
  length (store o') = length (store o) + count_push evs /\
  length (stack o') + count_pop evs = length (stack o) + count_push evs.
Proof.
  revert o. induction evs as [|e evs IH]; intros o; simpl.
  - intros H. injection H as <-. unfold count_push, count_pop. simpl. lia.
  - destruct (handle o e) as [err|o1] eqn:He; simpl; [discriminate|].
    intros H. destruct (IH _ H) as [H1 H2].
    destruct (handle_lengths _ _ _ He) as [H3 H4].
    unfold count_push, count_pop in *. simpl in *.
    destruct e; simpl in *; lia.
Qed.

(** Extra: the collected scopes form a tree.  After any successful walk
    the global scope has no parent; every other scope has a parent with
    a smaller id that lists it among its children; and every child
    listed by a scope appears once, has a larger id, and names that
    scope as its parent. *)
Theorem walk_scope_tree (og : bool) (rk : list string) (evs : list Event)
  (o : Obfuscator) :
  walk (Obfuscator_init og rk) evs = inr o ->
  (exists r, nth_error (store o) global_scope = Some r /\ parent r = None) /\
  (forall j sc, nth_error (store o) j = Some sc ->
     (j <> global_scope -> exists p psc, parent sc = Some p /\ p < j /\
        nth_error (store o) p = Some psc /\ In j (children psc)) /\
     NoDup (children sc) /\
     (forall c, In c (children sc) -> j < c /\
        exists csc, nth_error (store o) c = Some csc /\ parent csc = Some j)).
Proof.
  intros H. destruct (tree_run _ _ _ _ H) as [_ [Hroot [Hsc _]]].
  split; [exact Hroot|]. intros j sc Hj.
  destruct (Hsc _ _ Hj) as [H1 [H2 [H3 _]]]. auto.
Qed.

(** Extra: the traversal stack is the path from the current scope to
    the global scope.  After any successful walk, each scope on the
    stack has the scope just below it as its parent, and the bottom of
    the stack is the global scope. *)
Theorem walk_stack_is_scope_path (og : bool) (rk : list string)
  (evs : list Event) (o : Obfuscator) :
  walk (Obfuscator_init og rk) evs = inr o ->
  forall k i, nth_error (stack o) k = Some i ->
    (nth_error (stack o) (S k) = None -> i = global_scope) /\
    (forall p, nth_error (stack o) (S k) = Some p ->
       exists sc, nth_error (store o) i = Some sc /\ parent sc = Some p).
Proof.
  intros H k i Hk. destruct (tree_run _ _ _ _ H) as [_ [_ [_ [Hst _]]]].
  exact (stack_chain_nth _ _ _ _ Hst Hk).
Qed.

(** Extra: [Obfuscator.scopes] maps a node to a scope created for that
    node: after any successful walk, if [scopes[nd]] is scope [j], then
    scope [j]'s [node] is [nd]. *)
Theorem walk_scopes_table (og : bool) (rk : list string) (evs : list Event)
  (o : Obfuscator) (nd j : nat) :
  walk (Obfuscator_init og rk) evs = inr o ->
  dict_get Nat.eqb (scopes o) nd = Some j ->
  exists sc, nth_error (store o) j = Some sc /\ node sc = Some nd.
Proof.
  intros H Hj. destruct (tree_run _ _ _ _ H) as [_ [_ [_ [_ Hsco]]]].
  exact (Hsco _ _ Hj).
Qed.

(** Extra: every declared symbol has a reference count.  After any
    successful walk, a symbol in a scope's [local_declared_symbols] is
    a key of that scope's [referenced_symbols]. *)
Theorem walk_declared_are_counted (og : bool) (rk : list string)
  (evs : list Event) (o : Obfuscator) (j : nat) (sc : Scope) (k : string) :
  walk (Obfuscator_init og rk) evs = inr o ->
  nth_error (store o) j = Some sc -> In k (local_declared_symbols sc) ->
  exists c, In (k, c) (referenced_symbols sc).
Proof.
  intros H Hj Hk. destruct (tree_run _ _ _ _ H) as [_ [_ [Hsc _]]].
  destruct (Hsc _ _ Hj) as [_ [_ [_ Hincl]]].
  apply Hincl, in_map_iff in Hk as [[k' c] [Hk' Hin]].
  simpl in Hk'. subst k'. exists c. exact Hin.
Qed.

(** Extra: after any successful walk there is one scope per
    [PushScope] event plus the global scope, and the stack holds the
    global scope plus one scope per [PushScope] not yet matched by a
    [PopScope]. *)
Theorem walk_counts (og : bool) (rk : list string) (evs : list Event)
  (o : Obfuscator) :
  walk (Obfuscator_init og rk) evs = inr o ->
  length (store o) = 1 + count_push evs /\
  length (stack o) + count_pop evs = 1 + count_push evs.
Proof.
  intros H. destruct (walk_lengths _ _ _ H) as [H1 H2]. simpl in H1, H2.
  split; lia.
Qed.

Ltac concrete_run E Eo :=
  let E' := fresh "E'" in
  pose proof E as E'; vm_compute in E'; injection E' as Eo.

Lemma walk_scope_tree_witness :
  exists o sc, walk (Obfuscator_init false []) nested_program = inr o /\
    nth_error (store o) 3 = Some sc /\
    exists p psc, parent sc = Some p /\ p < 3 /\
      nth_error (store o) p = Some psc /\ In 3 (children psc).
Proof.
  destruct (walk (Obfuscator_init false []) nested_program) as [e|o] eqn:E;
    [vm_compute in E; discriminate|].
  concrete_run E Eo.
  destruct (nth_error (store o) 3) as [sc|] eqn:E3;
    [|rewrite <- Eo in E3; vm_compute in E3; discriminate].
  exists o, sc. split; [reflexivity|]. split; [exact E3|].
  destruct (walk_scope_tree false [] nested_program o E) as [_ H].
  apply (proj1 (H 3 sc E3)). discriminate.
Defined.

Lemma walk_stack_is_scope_path_witness :
  exists o sc, walk (Obfuscator_init false []) two_open_scopes = inr o /\
    nth_error (stack o) 0 = Some 2 /\ nth_error (stack o) 1 = Some 1 /\
    nth_error (store o) 2 = Some sc /\ parent sc = Some 1.
Proof.
  destruct (walk (Obfuscator_init false []) two_open_scopes) as [e|o] eqn:E;
    [vm_compute in E; discriminate|].
  concrete_run E Eo.
  assert (H0 : nth_error (stack o) 0 = Some 2) by (rewrite <- Eo; reflexivity).
  assert (H1 : nth_error (stack o) 1 = Some 1) by (rewrite <- Eo; reflexivity).
  destruct (proj2 (walk_stack_is_scope_path false [] two_open_scopes o E 0 2 H0) 1 H1)
    as [sc [Hs Hp]].
  exists o, sc. auto.
Defined.

Lemma walk_scopes_table_witness :
  exists o sc, walk (Obfuscator_init false []) two_open_scopes = inr o /\
    dict_get Nat.eqb (scopes o) 101 = Some 2 /\
    nth_error (store o) 2 = Some sc /\ node sc = Some 101.
Proof.
  destruct (walk (Obfuscator_init false []) two_open_scopes) as [e|o] eqn:E;
    [vm_compute in E; discriminate|].
  concrete_run E Eo.
  assert (H : dict_get Nat.eqb (scopes o) 101 = Some 2)
    by (rewrite <- Eo; reflexivity).
  destruct (walk_scopes_table false [] two_open_scopes o 101 2 E H)
    as [sc [Hs Hn]].
  exists o, sc. auto.
Defined.

Lemma walk_declared_are_counted_witness :
  exists o sc c, walk (Obfuscator_init false []) declared_parameter = inr o /\
    nth_error (store o) 1 = Some sc /\
    In "x"%string (local_declared_symbols sc) /\
    In ("x"%string, c) (referenced_symbols sc).
Proof.
  destruct (walk (Obfuscator_init false []) declared_parameter) as [e|o] eqn:E;
    [vm_compute in E; discriminate|].
  concrete_run E Eo.
  destruct (nth_error (store o) 1) as [sc|] eqn:E1;
    [|rewrite <- Eo in E1; vm_compute in E1; discriminate].
  assert (Hx : In "x"%string (local_declared_symbols sc)).
  { rewrite <- Eo in E1. vm_compute in E1. injection E1 as <-.
    left. reflexivity. }
  destruct (walk_declared_are_counted false [] declared_parameter o 1 sc
              "x" E E1 Hx) as [c Hc].
  exists o, sc, c. auto.
Defined.

Lemma walk_counts_witness :
  exists o, walk (Obfuscator_init false []) two_open_scopes = inr o /\
    length (store o) = 3 /\ length (stack o) = 3.
Proof.
  destruct (walk (Obfuscator_init false []) two_open_scopes) as [e|o] eqn:E;
    [vm_compute in E; discriminate|].
  destruct (walk_counts false [] two_open_scopes o E) as [H1 H2].
  assert (Hp : count_push two_open_scopes = 2) by reflexivity.
  assert (Hq : count_pop two_open_scopes = 0) by reflexivity.
  rewrite Hp in H1, H2. rewrite Hq in H2.
  exists o. split; [reflexivity|]. split; lia.
Defined.

(* ------------------------------------------------------------------ *)
(** ** NameGenerator.__call__ *)

Lemma filter_filter' {A} (f g : A -> bool) l :
  filter f (filter g l) = filter (fun x => f x && g x) l.
Proof.
  induction l as [|a l IH]; simpl; [reflexivity|].
  destruct (g a); simpl; destruct (f a); simpl; rewrite ?IH; reflexivity.
Qed.

Lemma mem_app s l1 l2 : mem s (l1 ++ l2) = mem s l1 || mem s l2.
Proof. unfold mem. apply existsb_app. Qed.

(** Extra: the generator [ng(skip)] that [NameGenerator.__call__]
    returns enumerates the names of [ng] in the same order, without
    those in [skip]; each name it draws is in neither [skip] nor [ng]'s
    own skip set. *)
Theorem NameGenerator_call_enumeration (ng : NameGenerator) (sk : list string) :
  (forall N, iter_upto (NameGenerator_call ng sk) N =
             filter (fun s => negb (mem s sk)) (iter_upto ng N)) /\
  (forall k s, In s (take_names (NameGenerator_call ng sk) k) ->
     ~ In s sk /\ ~ In s (skip ng)).
Proof.
  split.
  - intros N. unfold iter_upto. simpl. rewrite filter_filter'.
    apply filter_ext. intros s. rewrite mem_app.
    destruct (mem s sk), (mem s (skip ng)); reflexivity.
  - intros k s Hs. apply take_names_In in Hs. simpl in Hs.
    rewrite in_app_iff in Hs. tauto.
Qed.

(* ------------------------------------------------------------------ *)
(** ** One scope's remap step *)

Lemma NoDup_firstn' {A} k (l : list A) : NoDup l -> NoDup (firstn k l).
Proof.
  intros H. rewrite <- (firstn_skipn k l) in H.
  exact (NoDup_app_remove_r _ _ H).
Qed.

Lemma take_names_NoDup ng k : NoDup (charset ng) -> NoDup (take_names ng k).
Proof.
  intros Hnd. rewrite take_names_iter_upto. apply NoDup_firstn'.
  eapply StronglySorted_NoDup;
    [apply shortlex_lt_irrefl | apply iter_upto_sorted, Hnd].
Qed.

Lemma remap_pairs_injective ng s i sc k1 k2 v :
  NoDup (charset ng) ->
  In (k1, v) (remap_pairs ng s i sc) -> In (k2, v) (remap_pairs ng s i sc) ->
  k1 = k2.
Proof.
  intros Hnd H1 H2. unfold remap_pairs in H1, H2.
  apply In_combine_nth in H1 as [j1 [O1 N1]].
  apply In_combine_nth in H2 as [j2 [O2 N2]].
  assert (Hj : j1 = j2).
  { pose proof (take_names_NoDup (NameGenerator_call ng (remap_skip s i sc))
                  (length (remap_order sc)) Hnd) as HN.
    rewrite NoDup_nth_error in HN.
    apply HN; [apply nth_error_Some; congruence | congruence]. }
  subst j2. congruence.
Qed.

(** Extra: in one scope's remap step ([build_remap_symbols] with
    [children_only] false, on a scope whose table is still empty), two
    different symbols never receive the same replacement name, given an
    alphabet without repeated characters. *)
Theorem remap_scope_injective (ng : NameGenerator) (s : Store) (i : nat)
  (sc sc' : Scope) (k1 k2 v : string) :
  NoDup (charset ng) ->
  nth_error s i = Some sc -> remapped_symbols sc = [] ->
  nth_error (remap_scope ng s i sc) i = Some sc' ->
  In (k1, v) (remapped_symbols sc') -> In (k2, v) (remapped_symbols sc') ->
  k1 = k2.
Proof.
  intros Hnd Hi Hr Hi' H1 H2.
  unfold remap_scope in Hi'. rewrite (nth_error_store_set_same _ _ _ _ Hi) in Hi'.
  injection Hi' as <-. simpl in H1, H2. rewrite Hr in H1, H2.
  apply In_fold_dict_set in H1 as [[] | H1].
  apply In_fold_dict_set in H2 as [[] | H2].
  exact (remap_pairs_injective _ _ _ _ _ _ _ Hnd H1 H2).
Qed.

Lemma nodup_ascii_NoDup l : nodup_ascii l = true -> NoDup l.
Proof.
  induction l as [|a l IH]; simpl; [constructor|].
  intros H. apply andb_true_iff in H as [H1 H2]. constructor; [|auto].
  intros Hin. apply negb_true_iff in H1.
  assert (existsb (Ascii.eqb a) l = true)
    by (apply existsb_exists; exists a; split; [exact Hin | apply Ascii.eqb_refl]).
  congruence.
Qed.

Lemma ID_CHARS_NoDup : NoDup ID_CHARS.
Proof. apply nodup_ascii_NoDup. vm_compute. reflexivity. Qed.

Lemma remap_scope_injective_witness :
  let sc := mkScope false None None [] [("x"%string, 1); ("y"%string, 5)]
              ["x"%string; "y"%string] [] in
  exists sc',
    nth_error (remap_scope (NameGenerator_init [] ID_CHARS) [sc] 0 sc) 0 = Some sc' /\
    remapped_symbols sc' = [("y"%string, "a"%string); ("x"%string, "b"%string)] /\
    forall k1 k2 v, In (k1, v) (remapped_symbols sc') ->
      In (k2, v) (remapped_symbols sc') -> k1 = k2.
Proof.
  intros sc.
  destruct (nth_error (remap_scope (NameGenerator_init [] ID_CHARS) [sc] 0 sc) 0)
    as [sc'|] eqn:E; [|vm_compute in E; discriminate].
  exists sc'. split; [reflexivity|]. split.
  - vm_compute in E. injection E as <-. reflexivity.
  - intros k1 k2 v H1 H2.
    exact (remap_scope_injective (NameGenerator_init [] ID_CHARS) [sc] 0 sc sc'
             k1 k2 v ID_CHARS_NoDup eq_refl eq_refl E H1 H2).
Defined.

(* ------------------------------------------------------------------ *)
(** ** Entering and leaving a scope *)

(** Extra: entering a scope and leaving it right away ([push_scope]
    then [pop_scope], whatever node the pop is given) restores the
    stack, adds one closed, empty scope for the node as the last child
    of the current scope, records it in [scopes], and leaves every other
    scope and the identifiers table unchanged. *)
Theorem push_pop_scope (o : Obfuscator) (nd nd' cur : nat) (rest : list nat)
  (sc : Scope) :
  stack o = cur :: rest -> nth_error (store o) cur = Some sc ->
  exists o2, (o1 <- push_scope o nd ;; pop_scope o1 nd') = inr o2 /\
    stack o2 = stack o /\ identifiers o2 = identifiers o /\
    length (store o2) = S (length (store o)) /\
    dict_get Nat.eqb (scopes o2) nd = Some (length (store o)) /\
    nth_error (store o2) (length (store o)) =
      Some (mkScope true (Some nd) (Some cur) [] [] [] []) /\
    nth_error (store o2) cur =
      Some (set_children sc (children sc ++ [length (store o)])) /\
    (forall j, j <> cur -> j < length (store o) ->
       nth_error (store o2) j = nth_error (store o) j).
Proof.
  intros Hst Hsc.
  assert (Hcur : cur < length (store o)) by (apply nth_error_Some; congruence).
  set (n0 := length (store o)).
  set (s1 := store_update (store o) cur
               (fun sc0 => set_children sc0 (children sc0 ++ [n0]))).
  assert (Hs1 : length s1 = n0) by apply length_store_update.
  assert (Hnew : nth_error (s1 ++ [Scope_new (Some nd) (Some cur)]) n0 =
                 Some (Scope_new (Some nd) (Some cur))).
  { rewrite nth_error_app2 by lia. rewrite Hs1, Nat.sub_diag. reflexivity. }
  unfold push_scope, current_scope. rewrite Hst. simpl.
  unfold pop_scope, set_state. simpl. unfold Scope_close. fold n0. fold s1.
  rewrite Hnew. simpl.
  eexists. split; [reflexivity|]. simpl.
  split; [reflexivity|]. split; [reflexivity|].
  split; [rewrite length_store_set, length_app, Hs1; simpl; lia|].
  split; [rewrite (dict_get_set Nat.eqb nat_eqb_spec), Nat.eqb_refl; reflexivity|].
  split; [apply (nth_error_store_set_same _ _ _ _ Hnew)|].
  split.
  - rewrite nth_error_store_set_other by lia.
    rewrite nth_error_app1 by lia. unfold s1.
    rewrite (nth_error_store_update _ _ _ _ _ Hsc), Nat.eqb_refl. reflexivity.
  - intros j Hj Hjl. rewrite nth_error_store_set_other by lia.
    rewrite nth_error_app1 by lia.
    destruct (nth_error (store o) j) as [y|] eqn:Ey.
    + unfold s1. rewrite (nth_error_store_update _ _ _ _ _ Ey).
      destruct (Nat.eqb_spec cur j); [congruence | reflexivity].
    + apply nth_error_None in Ey. lia.
Qed.

Lemma walk_app o evs1 evs2 :
  walk o (evs1 ++ evs2) = (o1 <- walk o evs1 ;; walk o1 evs2).
Proof.
  revert o. induction evs1 as [|e evs1 IH]; intros o; simpl; [reflexivity|].
  destruct (handle o e); simpl; [reflexivity|]. apply IH.
Qed.

(** Extra: once the global scope itself has been popped (the stack is
    empty), the next event raises [IndexError]: [pop from empty list]
    for a [PopScope], [list index out of range] (from
    [current_scope]) for any other event; so the whole walk fails. *)
Theorem walk_after_root_popped (og : bool) (rk : list string)
  (evs1 : list Event) (o : Obfuscator) (e : Event) (evs2 : list Event) :
  walk (Obfuscator_init og rk) evs1 = inr o -> stack o = [] ->
  walk (Obfuscator_init og rk) (evs1 ++ e :: evs2) =
    inl (IndexError (match e with
                     | PopScope _ => "pop from empty list"
                     | _ => "list index out of range"
                     end)).
Proof.
  intros H Hst. rewrite walk_app, H. simpl.
  destruct e as [nd | nd | n | n]; simpl;
    unfold push_scope, pop_scope, declare, reference, current_scope;
    rewrite Hst; reflexivity.
Qed.

Lemma walk_after_root_popped_witness :
  walk (Obfuscator_init false []) ([PopScope 0] ++ [Resolve (occ 1 "x")]) =
    inl (IndexError "list index out of range").
Proof.
  destruct (walk (Obfuscator_init false []) [PopScope 0]) as [e|o] eqn:E;
    [vm_compute in E; discriminate|].
  apply (walk_after_root_popped false [] [PopScope 0] o (Resolve (occ 1 "x")) [] E).
  vm_compute in E. injection E as <-. reflexivity.
Defined.

Lemma push_pop_scope_witness :
  exists o2,
    (o1 <- push_scope (Obfuscator_init false []) 100 ;; pop_scope o1 7) = inr o2 /\
    stack o2 = [global_scope] /\
    nth_error (store o2) 1 = Some (mkScope true (Some 100) (Some 0) [] [] [] []).
Proof.
  destruct (push_pop_scope (Obfuscator_init false []) 100 7 0 []
              (Scope_new None None) eq_refl eq_refl)
    as [o2 [H1 [H2 [_ [_ [_ [H3 _]]]]]]].
  exists o2. auto.
Defined.

(* ------------------------------------------------------------------ *)
(** ** What build_remap_symbols keeps *)

Lemma strip_fields sc sc' :
  strip_remap sc = strip_remap sc' ->
  closed sc = closed sc' /\ node sc = node sc' /\ parent sc = parent sc' /\
  children sc = children sc' /\ referenced_symbols sc = referenced_symbols sc' /\
  local_declared_symbols sc = local_declared_symbols sc'.
Proof.
  unfold strip_remap, set_remapped. intros H.
  injection H as H1 H2 H3 H4 H5 H6. repeat split; congruence.
Qed.

Lemma strip_nth s s' i :
  map strip_remap s = map strip_remap s' ->
  option_map strip_remap (nth_error s i) = option_map strip_remap (nth_error s' i).
Proof. intros H. rewrite <- !nth_error_map. congruence. Qed.

Lemma strip_declared f s s' i :
  map strip_remap s = map strip_remap s' ->
  declared_symbols_fuel f s i = declared_symbols_fuel f s' i.
Proof.
  intros H. revert i. induction f as [|f IH]; intros i; simpl; [reflexivity|].
  pose proof (strip_nth s s' i H) as E.
  destruct (nth_error s i) as [a|], (nth_error s' i) as [b|]; simpl in E;
    try discriminate; [|reflexivity].
  assert (E' : strip_remap a = strip_remap b) by congruence.
  destruct (strip_fields _ _ E') as [_ [_ [Hp [_ [_ Hl]]]]].
  rewrite Hl, Hp. destruct (parent b); rewrite ?IH; reflexivity.
Qed.

Lemma strip_global s s' i :
  map strip_remap s = map strip_remap s' ->
  global_symbols s i = global_symbols s' i.
Proof.
  intros H. assert (Hl : length s = length s')
    by (rewrite <- (length_map strip_remap s), <- (length_map strip_remap s'), H;
        reflexivity).
  unfold global_symbols, declared_symbols. rewrite Hl, (strip_declared _ s s' i H).
  pose proof (strip_nth s s' i H) as E.
  destruct (nth_error s i) as [a|], (nth_error s' i) as [b|]; simpl in E;
    try discriminate; [|reflexivity].
  assert (E' : strip_remap a = strip_remap b) by congruence.
  destruct (strip_fields _ _ E') as [_ [_ [_ [_ [Hr _]]]]].
  rewrite Hr. reflexivity.
Qed.

Lemma strip_gsic_fuel f s s' i :
  map strip_remap s = map strip_remap s' ->
  global_symbols_in_children_fuel f s i = global_symbols_in_children_fuel f s' i.
Proof.
  intros H. revert i. induction f as [|f IH]; intros i; simpl; [reflexivity|].
  pose proof (strip_nth s s' i H) as E.
  destruct (nth_error s i) as [a|], (nth_error s' i) as [b|]; simpl in E;
    try discriminate; [|reflexivity].
  assert (E' : strip_remap a = strip_remap b) by congruence.
  destruct (strip_fields _ _ E') as [_ [_ [_ [Hc _]]]].
  rewrite Hc. apply flat_map_ext. intros c.
  rewrite (strip_global s s' c H), IH. reflexivity.
Qed.

Lemma strip_gsic s s' i :
  map strip_remap s = map strip_remap s' ->
  global_symbols_in_children s i = global_symbols_in_children s' i.
Proof.
  intros H. assert (Hl : length s = length s')
    by (rewrite <- (length_map strip_remap s), <- (length_map strip_remap s'), H;
        reflexivity).
  unfold global_symbols_in_children. rewrite Hl. apply strip_gsic_fuel, H.
Qed.

Lemma map_store_set (g : Scope -> Scope) s i x :
  map g (store_set s i x) = store_set (map g s) i (g x).
Proof.
  revert i. induction s as [|y s IH]; intros i; [reflexivity|].
  destruct i; simpl; [reflexivity|]. rewrite IH. reflexivity.
Qed.

Lemma store_set_nth_same s i x : nth_error s i = Some x -> store_set s i x = s.
Proof.
  revert i. induction s as [|y s IH]; intros i H; [destruct i; discriminate|].
  destruct i; simpl in *; [injection H as ->; reflexivity|]. rewrite IH; auto.
Qed.

Lemma strip_remap_scope ng s i sc :
  nth_error s i = Some sc ->
  map strip_remap (remap_scope ng s i sc) = map strip_remap s.
Proof.
  intros Hi. unfold remap_scope. rewrite map_store_set.
  replace (strip_remap (set_remapped sc _)) with (strip_remap sc) by reflexivity.
  apply store_set_nth_same. rewrite nth_error_map, Hi. reflexivity.
Qed.

Lemma remap_pairs_avoid ng s i sc k v :
  In (k, v) (remap_pairs ng s i sc) -> ~ In v (remap_skip s i sc).
Proof.
  unfold remap_pairs. intros H. apply in_combine_r, take_names_In in H.
  simpl in H. intros Hin. apply H, in_or_app. now left.
Qed.

(** Extra: a replacement name never captures a free name.  After
    [finalize] (under either configuration), no replacement name in a
    scope's remap table is a symbol that is global (referenced, never
    declared on the way to the root) in that scope or in any scope below
    it. *)
Theorem finalize_avoids_free_names (og : bool) (rk : list string)
  (evs : list Event) (o : Obfuscator) :
  prewalk_hook og rk evs = inr o ->
  forall j sc k v, nth_error (store o) j = Some sc ->
    In (k, v) (remapped_symbols sc) ->
    ~ In v (global_symbols (store o) j) /\
    ~ In v (global_symbols_in_children (store o) j).
Proof.
  intros H. destruct (prewalk_hook_inv _ _ _ _ H)
    as [o1 [s1 [_ [Hwf [Hc [Hst _]]]]]].
  destruct (close_global_shape _ _ Hwf Hc) as [_ Hsh1].
  set (ng := NameGenerator_init rk ID_CHARS) in Hst.
  assert (HP : map strip_remap (store o) = map strip_remap s1 /\
     forall j sc k v, nth_error (store o) j = Some sc ->
       In (k, v) (remapped_symbols sc) ->
       ~ In v (global_symbols s1 j) /\ ~ In v (global_symbols_in_children s1 j)).
  { rewrite Hst. unfold build_remap_symbols.
    apply (build_preserves
      (fun st => map strip_remap st = map strip_remap s1 /\
         forall j sc k v, nth_error st j = Some sc ->
           In (k, v) (remapped_symbols sc) ->
           ~ In v (global_symbols s1 j) /\ ~ In v (global_symbols_in_children s1 j))
      (fun _ => True) ng).
    - intros st i sc [Hstrip Hvals] _ Hi. split.
      + rewrite (strip_remap_scope _ _ _ _ Hi). exact Hstrip.
      + intros j sc' k v Hj Hin.
        apply remap_scope_shape in Hj as [[-> [_ ->]] | [_ Hj]].
        * simpl in Hin. apply In_fold_dict_set in Hin as [Hin | Hin];
            [exact (Hvals _ _ _ _ Hi Hin)|].
          apply remap_pairs_avoid in Hin. unfold remap_skip in Hin.
          rewrite <- (strip_global _ _ i Hstrip), <- (strip_gsic _ _ i Hstrip).
          split; intros Hv; apply Hin; rewrite !in_app_iff; tauto.
        * exact (Hvals _ _ _ _ Hj Hin).
    - intros. exact I.
    - split; [reflexivity|]. intros j sc k v Hj Hin.
      rewrite (proj1 (Hsh1 _ _ Hj)) in Hin. destruct Hin.
    - right. exact I. }
  destruct HP as [Hstrip Hvals]. intros j sc k v Hj Hin.
  rewrite (strip_global _ _ j Hstrip), (strip_gsic _ _ j Hstrip).
  exact (Hvals _ _ _ _ Hj Hin).
Qed.

Lemma finalize_avoids_free_names_witness :
  exists o, prewalk_hook false []
    [Resolve (occ 1 "a"); PushScope 100; Declare (occ 2 "x");
     Resolve (occ 3 "x"); Resolve (occ 4 "a"); PopScope 100] = inr o /\
  (exists sc, nth_error (store o) 1 = Some sc /\
     remapped_symbols sc = [("x"%string, "b"%string)]) /\
  ~ In "b"%string (global_symbols (store o) 1).
Proof.
  destruct (prewalk_hook false []
    [Resolve (occ 1 "a"); PushScope 100; Declare (occ 2 "x");
     Resolve (occ 3 "x"); Resolve (occ 4 "a"); PopScope 100]) as [e|o] eqn:E;
    [vm_compute in E; discriminate|].
  concrete_run E Eo.
  exists o. split; [reflexivity|]. split.
  - rewrite <- Eo. eexists. split; reflexivity.
  - assert (Hsc : exists sc, nth_error (store o) 1 = Some sc /\
                  In ("x"%string, "b"%string) (remapped_symbols sc))
      by (rewrite <- Eo; eexists; split; [reflexivity | left; reflexivity]).
    destruct Hsc as [sc [Hsc Hin]].
    exact (proj1 (finalize_avoids_free_names _ _ _ _ E 1 sc _ _ Hsc Hin)).
Defined.

(* ------------------------------------------------------------------ *)
(** ** The global scope under [obfuscate_globals] *)

Lemma ID_CHARS_nonempty : ID_CHARS <> [].
Proof. vm_compute. discriminate. Qed.

Lemma take_names_length ng k :
  NoDup (charset ng) -> charset ng <> [] -> length (take_names ng k) = k.
Proof.
  intros Hnd Hne. rewrite take_names_iter_upto, length_firstn.
  pose proof (iter_upto_length ng (k + length (skip ng)) Hnd Hne). lia.
Qed.

Lemma take_names_nonempty ng k v : In v (take_names ng k) -> v <> EmptyString.
Proof.
  rewrite take_names_iter_upto. intros H.
  apply In_firstn, iter_upto_In in H as [Hl _]. intros ->. simpl in Hl. lia.
Qed.

Lemma map_fst_combine' {A B} (l1 : list A) (l2 : list B) :
  length l1 <= length l2 -> map fst (combine l1 l2) = l1.
Proof.
  revert l2. induction l1 as [|a l1 IH]; intros [|b l2]; simpl; intros H;
    try reflexivity; [lia|]. f_equal. apply IH. lia.
Qed.

Lemma fold_dict_set_other (pairs d : list (string * string)) k :
  ~ In k (map fst pairs) ->
  dict_get String.eqb
    (fold_left (fun d kv => dict_set String.eqb d (fst kv) (snd kv)) pairs d) k =
  dict_get String.eqb d k.
Proof.
  revert d. induction pairs as [|[k1 v1] pairs IH]; intros d H; simpl in *;
    [reflexivity|].
  rewrite IH by tauto. rewrite (dict_get_set String.eqb string_eqb_spec).
  destruct (String.eqb_spec k k1); [subst; exfalso; tauto | reflexivity].
Qed.

Lemma fold_dict_set_get (pairs d : list (string * string)) k :
  In k (map fst pairs) ->
  exists v, dict_get String.eqb
    (fold_left (fun d kv => dict_set String.eqb d (fst kv) (snd kv)) pairs d) k
      = Some v /\ In (k, v) pairs.
Proof.
  revert d. induction pairs as [|[k1 v1] pairs IH]; intros d H; simpl in *;
    [tauto|].
  destruct (in_dec string_dec k (map fst pairs)) as [Hin | Hout].
  - destruct (IH (dict_set String.eqb d k1 v1) Hin) as [v [Hv Hp]].
    exists v. auto.
  - destruct H as [<- | H]; [|contradiction]. exists v1.
    rewrite (fold_dict_set_other _ _ _ Hout).
    rewrite (dict_get_set String.eqb string_eqb_spec), String.eqb_refl. auto.
Qed.

Lemma remap_pairs_keys ng s i sc k :
  NoDup (charset ng) -> charset ng <> [] ->
  In k (local_declared_symbols sc) -> In k (map fst (referenced_symbols sc)) ->
  In k (map fst (remap_pairs ng s i sc)).
Proof.
  intros Hnd Hne Hk Hr. unfold remap_pairs.
  rewrite map_fst_combine' by (rewrite take_names_length; [lia | exact Hnd | exact Hne]).
  unfold remap_order. apply in_map_iff in Hr as [[k' c] [Hk' Hin]].
  simpl in Hk'. subst k'. apply in_map_iff. exists (k, c). split; [reflexivity|].
  apply filter_In. split.
  - rewrite <- in_rev, sort_by_count_In. exact Hin.
  - apply mem_In. exact Hk.
Qed.

Lemma build_step_false f ng s i sc :
  nth_error s i = Some sc ->
  build_remap_symbols_fuel (S f) ng s i false =
  build_remap_symbols_fuel (S f) ng (remap_scope ng s i sc) i true.
Proof.
  intros Hi.
  assert (Hr : nth_error (remap_scope ng s i sc) i =
    Some (set_remapped sc
      (fold_left (fun d kv => dict_set String.eqb d (fst kv) (snd kv))
                 (remap_pairs ng s i sc) (remapped_symbols sc))))
    by (unfold remap_scope; eapply nth_error_store_set_same; exact Hi).
  simpl. rewrite Hi, Hr. reflexivity.
Qed.

(** Extra: with [obfuscate_globals] set, [finalize] gives every symbol
    declared in the global scope a non-empty replacement name in the
    global scope's remap table, which is what resolving it from the
    global scope returns; the table has no other key. *)
Theorem finalize_globals_renamed (rk : list string) (evs : list Event)
  (o : Obfuscator) :
  prewalk_hook true rk evs = inr o ->
  exists r, nth_error (store o) global_scope = Some r /\
    forall k,
      (In k (local_declared_symbols r) ->
         exists v, v <> EmptyString /\
           dict_get String.eqb (remapped_symbols r) k = Some v /\
           Scope_resolve (store o) global_scope k = v) /\
      (~ In k (local_declared_symbols r) ->
         dict_get String.eqb (remapped_symbols r) k = None).
Proof.
  intros H. destruct (prewalk_hook_inv _ _ _ _ H)
    as [o1 [s1 [Hw [Hwf [Hc [Hst _]]]]]].
  destruct (close_global_shape _ _ Hwf Hc) as [Hlen Hsh1].
  destruct (tree_run _ _ _ _ Hw) as [_ [_ [Htree _]]].
  (* the global scope after [close] *)
  assert (Hroot : exists sc0, nth_error s1 global_scope = Some sc0 /\
            incl (local_declared_symbols sc0) (map fst (referenced_symbols sc0))).
  { unfold Scope_close in Hc.
    destruct (nth_error (store o1) global_scope) as [sc|] eqn:E0; [|discriminate].
    destruct (closed sc); [discriminate|]. injection Hc as <-.
    eexists. split; [eapply nth_error_store_set_same; exact E0|].
    destruct (Htree _ _ E0) as [_ [_ [_ Hincl]]]. simpl.
    intros k Hk. apply merge_children_keys, Hincl, Hk. }
  destruct Hroot as [sc0 [H0 Hincl]].
  set (ng := NameGenerator_init rk ID_CHARS) in Hst.
  unfold build_remap_symbols in Hst. simpl negb in Hst.
  destruct (length s1) as [|f] eqn:Ef; [lia|].
  rewrite (build_step_false f ng s1 global_scope sc0 H0) in Hst.
  set (r1 := set_remapped sc0
      (fold_left (fun d kv => dict_set String.eqb d (fst kv) (snd kv))
                 (remap_pairs ng s1 global_scope sc0) (remapped_symbols sc0))).
  assert (Hr : nth_error (store o) global_scope = Some r1).
  { rewrite Hst.
    apply (build_preserves
      (fun st => nth_error st global_scope = Some r1 /\
         forall j sc, nth_error st j = Some sc -> ~ In global_scope (children sc))
      (fun i => i <> global_scope) ng); [| | | now left].
    - intros st i sc [Hg Hch] Hi Hsc. split.
      + unfold remap_scope. rewrite nth_error_store_set_other by exact Hi.
        exact Hg.
      + intros j sc' Hj.
        apply remap_scope_shape in Hj as [[-> [_ ->]] | [_ Hj]].
        * exact (Hch _ _ Hsc).
        * exact (Hch _ _ Hj).
    - intros st i sc c [_ Hch] Hsc Hcin Heq. subst c. exact (Hch _ _ Hsc Hcin).
    - split.
      + unfold remap_scope. eapply nth_error_store_set_same. exact H0.
      + intros j sc Hj.
        apply remap_scope_shape in Hj as [[-> [_ ->]] | [_ Hj]].
        * exact (proj2 (Hsh1 _ _ H0)).
        * exact (proj2 (Hsh1 _ _ Hj)). }
  exists r1. split; [exact Hr|]. intros k.
  assert (Hnil : remapped_symbols sc0 = []) by exact (proj1 (Hsh1 _ _ H0)).
  split.
  - intros Hk. simpl in Hk.
    pose proof (remap_pairs_keys ng s1 global_scope sc0 k ID_CHARS_NoDup
                  ID_CHARS_nonempty Hk (Hincl k Hk)) as Hkeys.
    destruct (fold_dict_set_get _ (remapped_symbols sc0) _ Hkeys) as [v [Hv Hp]].
    assert (Hne : v <> EmptyString).
    { unfold remap_pairs in Hp. apply in_combine_r in Hp.
      exact (take_names_nonempty _ _ _ Hp). }
    exists v. split; [exact Hne|]. split; [exact Hv|].
    unfold Scope_resolve.
    destruct (length (store o)) as [|f'] eqn:El.
    { apply length_zero_iff_nil in El. rewrite El in Hr. destruct global_scope;
        discriminate. }
    cbn [resolve_loop]. rewrite Hr. simpl remapped_symbols. rewrite Hv.
    destruct (String.eqb_spec v EmptyString); [contradiction | reflexivity].
  - intros Hk. simpl in Hk. simpl remapped_symbols.
    destruct (dict_get String.eqb _ k) as [v|] eqn:Eg; [|reflexivity].
    exfalso. apply (dict_get_In String.eqb string_eqb_spec) in Eg.
    apply In_fold_dict_set in Eg as [Eg | Eg].
    + rewrite Hnil in Eg. destruct Eg.
    + apply remap_pairs_In in Eg as [Hk' _]. contradiction.
Qed.

Lemma finalize_globals_renamed_witness :
  exists o, prewalk_hook true [] [Declare (occ 1 "x"); Resolve (occ 2 "x")] = inr o /\
  Scope_resolve (store o) global_scope "x" = "a"%string /\
  exists v, v <> EmptyString /\ Scope_resolve (store o) global_scope "x" = v.
Proof.
  destruct (prewalk_hook true [] [Declare (occ 1 "x"); Resolve (occ 2 "x")])
    as [e|o] eqn:E; [vm_compute in E; discriminate|].
  concrete_run E Eo.
  exists o. split; [reflexivity|]. split; [rewrite <- Eo; vm_compute; reflexivity|].
  destruct (finalize_globals_renamed _ _ _ E) as [r [Hr Hall]].
  assert (Hx : In "x"%string (local_declared_symbols r))
    by (rewrite <- Eo in Hr; vm_compute in Hr; injection Hr as <-; left; reflexivity).
  destruct (proj1 (Hall _) Hx) as [v [Hv [_ Hres]]].
  exists v. split; [exact Hv | exact Hres].
Defined.

(* ------------------------------------------------------------------ *)
(** ** Scope.close_all *)

Lemma links_nth s s' j sc :
  map scope_links s = map scope_links s' -> nth_error s j = Some sc ->
  exists sc', nth_error s' j = Some sc' /\
    parent sc' = parent sc /\ children sc' = children sc.
Proof.
  intros H Hj. pose proof (f_equal (fun l => nth_error l j) H) as E.
  simpl in E. rewrite !nth_error_map, Hj in E.
  destruct (nth_error s' j) as [sc'|]; simpl in E; [|discriminate].
  injection E as E1 E2. exists sc'. auto.
Qed.

Lemma desc_shape s s' i j :
  map scope_links s = map scope_links s' -> descendant s i j -> descendant s' i j.
Proof.
  intros H D. induction D as [|j sc c D IH Hj Hc]; [constructor|].
  destruct (links_nth _ _ _ _ H Hj) as [sc' [Hj' [_ Hch]]].
  apply (descendant_child s' i j sc' c IH Hj'). rewrite Hch. exact Hc.
Qed.

Lemma child_links_shape s s' :
  map scope_links s = map scope_links s' -> child_links s -> child_links s'.
Proof.
  intros H Hl j sc' Hj'.
  destruct (links_nth _ _ _ _ (eq_sym H) Hj') as [sc [Hj [_ Hch]]].
  destruct (Hl _ _ Hj) as [Hnd Hc]. rewrite <- Hch. split; [exact Hnd|].
  intros c Hin. destruct (Hc c Hin) as [Hlt [csc [Hcs Hp]]].
  split; [exact Hlt|].
  destruct (links_nth _ _ _ _ H Hcs) as [csc' [Hcs' [Hp' _]]].
  exists csc'. split; [exact Hcs' | congruence].
Qed.

Lemma desc_le s a j : child_links s -> descendant s a j -> a <= j.
Proof.
  intros Hl D. induction D as [|j sc c D IH Hj Hc]; [lia|].
  destruct (Hl _ _ Hj) as [_ Hch]. destruct (Hch c Hc) as [Hlt _]. lia.
Qed.

Lemma parent_unique s j0 sc0 j1 sc1 c :
  child_links s -> nth_error s j0 = Some sc0 -> In c (children sc0) ->
  nth_error s j1 = Some sc1 -> In c (children sc1) -> j0 = j1.
Proof.
  intros Hl H0 Hc0 H1 Hc1.
  destruct (proj2 (Hl _ _ H0) c Hc0) as [_ [csc0 [E0 P0]]].
  destruct (proj2 (Hl _ _ H1) c Hc1) as [_ [csc1 [E1 P1]]].
  congruence.
Qed.

Lemma desc_comparable s a b j :
  child_links s -> descendant s a j -> descendant s b j ->
  descendant s a b \/ descendant s b a.
Proof.
  intros Hl D1. revert b.
  induction D1 as [|j0 sc0 c D1 IH H0 Hc0]; intros b D2; [now right|].
  inversion D2 as [Eb | j1 sc1 c' D2' H1 Hc1 Ec]; subst.
  - left. eapply descendant_child; eauto.
  - rewrite (parent_unique _ _ _ _ _ _ Hl H0 Hc0 H1 Hc1) in IH.
    exact (IH _ D2').
Qed.

Lemma children_disjoint s i sc c1 c2 j :
  child_links s -> nth_error s i = Some sc ->
  In c1 (children sc) -> In c2 (children sc) -> c1 <> c2 ->
  descendant s c1 j -> descendant s c2 j -> False.
Proof.
  intros Hl Hi H1 H2 Hne D1 D2.
  assert (Hgen : forall a b, In a (children sc) -> In b (children sc) -> a <> b ->
            descendant s a b -> False).
  { intros a b Ha Hb Hab D. inversion D as [E | j1 sc1 c' D' Hj1 Hc1 Ec]; subst.
    - contradiction.
    - rewrite <- (parent_unique _ _ _ _ _ _ Hl Hi Hb Hj1 Hc1) in D'.
      pose proof (desc_le _ _ _ Hl D').
      destruct (proj2 (Hl _ _ Hi) a Ha) as [Hlt _]. lia. }
  destruct (desc_comparable _ _ _ _ Hl D1 D2) as [D | D].
  - exact (Hgen _ _ H1 H2 Hne D).
  - exact (Hgen _ _ H2 H1 (not_eq_sym Hne) D).
Qed.

Lemma desc_top s i j :
  descendant s i j ->
  j = i \/ exists sc c, nth_error s i = Some sc /\ In c (children sc) /\
                        descendant s c j.
Proof.
  intros D. induction D as [|j sc c D IH Hj Hc]; [now left|].
  right. destruct IH as [-> | [sc0 [c0 [H0 [Hc0 D0]]]]].
  - exists sc, c. repeat split; [exact Hj | exact Hc | constructor].
  - exists sc0, c0. repeat split; [exact H0 | exact Hc0 |].
    exact (descendant_child s c0 j sc c D0 Hj Hc).
Qed.

Lemma desc_child s i sc c j :
  nth_error s i = Some sc -> In c (children sc) -> descendant s c j ->
  descendant s i j.
Proof.
  intros Hi Hc D. induction D as [|j sc' c' D IH Hj Hc'].
  - exact (descendant_child s i i sc c (descendant_self s i) Hi Hc).
  - exact (descendant_child s i j sc' c' IH Hj Hc').
Qed.

Lemma links_store_set s i x :
  (forall y, nth_error s i = Some y -> scope_links x = scope_links y) ->
  map scope_links (store_set s i x) = map scope_links s.
Proof.
  revert i. induction s as [|y s IH]; intros i H; [reflexivity|].
  destruct i; simpl in *.
  - rewrite (H y eq_refl). reflexivity.
  - rewrite IH; auto.
Qed.

Lemma fold_close_all_inl f cs e :
  fold_left (fun acc c => st <- acc ;; Scope_close_all_fuel f st c) cs (inl e)
  = inl e.
Proof. induction cs; simpl; auto. Qed.

Lemma fold_close_all_cons f c cs st :
  fold_left (fun acc c => st <- acc ;; Scope_close_all_fuel f st c) (c :: cs) (inr st)
  = fold_left (fun acc c => st <- acc ;; Scope_close_all_fuel f st c) cs
      (Scope_close_all_fuel f st c).
Proof. reflexivity. Qed.

Lemma closed_at_eq s s' j :
  nth_error s' j = nth_error s j -> closed_at s' j = closed_at s j.
Proof. unfold closed_at. intros ->. reflexivity. Qed.

Lemma close_all_fuel_spec f : forall s i,
  child_links s -> nth_error s i <> None -> length s <= i + f ->
  match Scope_close_all_fuel f s i with
  | inr s' =>
      map scope_links s' = map scope_links s /\
      (forall j, descendant s i j -> closed_at s j = false /\ closed_at s' j = true) /\
      (forall j, ~ descendant s i j -> nth_error s' j = nth_error s j)
  | inl e =>
      e = ValueError "scope is already marked as closed" /\
      exists j, descendant s i j /\ closed_at s j = true
  end.
Proof.
  induction f as [|f IHf]; intros s i Hl Hi Hlen.
  { apply nth_error_Some in Hi. lia. }
  cbn [Scope_close_all_fuel].
  destruct (nth_error s i) as [sc|] eqn:Esc; [|contradiction]. clear Hi.
  destruct (Hl _ _ Esc) as [Hnd Hch].
  (* the loop over the children *)
  assert (Hfold : forall cs st, incl cs (children sc) -> NoDup cs ->
    map scope_links st = map scope_links s ->
    match fold_left (fun acc c => st <- acc ;; Scope_close_all_fuel f st c)
                    cs (inr st) with
    | inr st' =>
        map scope_links st' = map scope_links s /\
        (forall j, (exists c, In c cs /\ descendant s c j) ->
           closed_at st j = false /\ closed_at st' j = true) /\
        (forall j, ~ (exists c, In c cs /\ descendant s c j) ->
           nth_error st' j = nth_error st j)
    | inl e =>
        e = ValueError "scope is already marked as closed" /\
        exists c j, In c cs /\ descendant s c j /\ closed_at st j = true
    end).
  { induction cs as [|c cs IHcs]; intros st Hincl Hndc Hst.
    { simpl. split; [exact Hst|]. split.
      - intros j [c [[] _]].
      - intros. reflexivity. }
    rewrite fold_close_all_cons.
    apply NoDup_cons_iff in Hndc as [Hcn Hndc].
    assert (Hcin : In c (children sc)) by (apply Hincl; now left).
    destruct (Hch c Hcin) as [Hlt [csc [Ecs _]]].
    assert (Hdisj : forall c' j, In c' cs -> descendant s c j ->
                    descendant s c' j -> False).
    { intros c' j Hc' D D'. apply (children_disjoint s i sc c c' j Hl Esc Hcin);
        [apply Hincl; now right | intros ->; contradiction | exact D | exact D']. }
    pose proof (IHf st c (child_links_shape _ _ (eq_sym Hst) Hl)) as IHc.
    destruct (links_nth _ _ _ _ (eq_sym Hst) Ecs) as [csc' [Ecs' _]].
    assert (Hlen' : length st <= c + f)
      by (rewrite <- (length_map scope_links st), Hst, length_map; lia).
    specialize (IHc ltac:(congruence) Hlen').
    destruct (Scope_close_all_fuel f st c) as [e|st1] eqn:Ec.
    - rewrite fold_close_all_inl. destruct IHc as [He [j [D Hcl]]].
      split; [exact He|]. exists c, j. split; [now left|]. split; [|exact Hcl].
      exact (desc_shape _ _ _ _ Hst D).
    - destruct IHc as [Hsh1 [Hcl1 Hout1]].
      assert (Hst1 : map scope_links st1 = map scope_links s) by congruence.
      specialize (IHcs st1 (fun x H => Hincl x (or_intror H)) Hndc Hst1).
      lazymatch type of IHcs with
      | match ?X with inl _ => _ | inr _ => _ end =>
          lazymatch goal with
          | |- match ?Y with inl _ => _ | inr _ => _ end =>
              replace Y with X by reflexivity; destruct X as [e|st']
          end
      end.
      + destruct IHcs as [He [c' [j [Hc' [D Hcl]]]]]. split; [exact He|].
        exists c', j. split; [now right|]. split; [exact D|].
        rewrite <- Hcl. symmetry. apply closed_at_eq, Hout1.
        intros D0. apply (Hdisj c' j Hc'); [exact (desc_shape _ _ _ _ Hst D0) | exact D].
      + destruct IHcs as [Hsh' [Hcl' Hout']]. split; [exact Hsh'|]. split.
        * intros j [c' [[Ec' | Hc'] D]].
          -- subst c'. assert (D0 : descendant st c j) by exact (desc_shape _ _ _ _ (eq_sym Hst) D).
             destruct (Hcl1 j D0) as [Ho Hc1]. split; [exact Ho|].
             rewrite (closed_at_eq st1 st' j); [exact Hc1|].
             apply Hout'. intros [c'' [Hc'' D'']]. exact (Hdisj c'' j Hc'' D D'').
          -- destruct (Hcl' j (ex_intro _ c' (conj Hc' D))) as [Ho Hc1].
             split; [|exact Hc1]. rewrite <- Ho. symmetry. apply closed_at_eq, Hout1.
             intros D0. apply (Hdisj c' j Hc');
               [exact (desc_shape _ _ _ _ Hst D0) | exact D].
        * intros j Hn. rewrite Hout'.
          -- apply Hout1. intros D0. apply Hn. exists c. split; [now left|].
             exact (desc_shape _ _ _ _ Hst D0).
          -- intros [c'' [Hc'' D'']]. apply Hn. exists c''. split; [now right | exact D'']. }
  specialize (Hfold (children sc) s (fun x H => H) Hnd eq_refl).
  lazymatch type of Hfold with
  | match ?X with inl _ => _ | inr _ => _ end =>
      lazymatch goal with
      | |- context [bind ?Y _] =>
          replace Y with X by reflexivity; destruct X as [e|s1]; simpl
      end
  end.
  - destruct Hfold as [He [c [j [Hc [D Hcl]]]]]. split; [exact He|].
    exists j. split; [exact (desc_child _ _ _ _ _ Esc Hc D) | exact Hcl].
  - destruct Hfold as [Hsh1 [Hcl1 Hout1]].
    assert (Hnotc : forall j, descendant s i j -> j <> i ->
              exists c, In c (children sc) /\ descendant s c j).
    { intros j D Hne. destruct (desc_top _ _ _ D) as [-> | [sc0 [c [E0 [Hc D0]]]]];
        [contradiction|]. rewrite Esc in E0. injection E0 as <-. eauto. }
    assert (Hnoti : ~ exists c, In c (children sc) /\ descendant s c i).
    { intros [c [Hc D]]. pose proof (desc_le _ _ _ Hl D).
      destruct (Hch c Hc) as [Hlt _]. lia. }
    assert (Ei1 : nth_error s1 i = Some sc) by (rewrite Hout1; assumption).
    unfold Scope_close. rewrite Ei1.
    destruct (closed sc) eqn:Ecl.
    + split; [reflexivity|]. exists i. split; [constructor|].
      unfold closed_at. rewrite Esc. exact Ecl.
    + split; [|split].
      * rewrite links_store_set; [exact Hsh1|].
        intros y Hy. rewrite Ei1 in Hy. injection Hy as <-. reflexivity.
      * intros j D. destruct (Nat.eq_dec j i) as [-> | Hne].
        -- unfold closed_at. rewrite Esc, (nth_error_store_set_same _ _ _ _ Ei1).
           split; [exact Ecl | reflexivity].
        -- destruct (Hcl1 j (Hnotc j D Hne)) as [Ho Hc1]. split; [exact Ho|].
           rewrite <- Hc1. apply closed_at_eq.
           apply nth_error_store_set_other. auto.
      * intros j Hn. assert (Hne : j <> i) by (intros ->; apply Hn; constructor).
        rewrite nth_error_store_set_other by auto. apply Hout1.
        intros [c [Hc D]]. apply Hn. exact (desc_child _ _ _ _ _ Esc Hc D).
Qed.

(** Extra: [Scope.close_all] on a scope of a well-linked store either
    closes exactly the scope and everything below it, all of which were
    open before, leaving the other scopes and the tree links untouched;
    or raises the [ValueError] of [close], and then some scope at or
    below it was already closed. *)
Theorem Scope_close_all_subtree (s : Store) (i : nat) :
  child_links s -> nth_error s i <> None ->
  match Scope_close_all s i with
  | inr s' =>
      map scope_links s' = map scope_links s /\
      (forall j, descendant s i j -> closed_at s j = false /\ closed_at s' j = true) /\
      (forall j, ~ descendant s i j -> nth_error s' j = nth_error s j)
  | inl e =>
      e = ValueError "scope is already marked as closed" /\
      exists j, descendant s i j /\ closed_at s j = true
  end.
Proof.
  intros Hl Hi. unfold Scope_close_all. apply close_all_fuel_spec; [exact Hl | exact Hi | lia].
Qed.

Lemma tree_child_links o : tree_state o -> child_links (store o).
Proof.
  intros [_ [Hsc _]] j sc Hj. destruct (Hsc _ _ Hj) as [_ [Hnd [Hch _]]].
  split; [exact Hnd | exact Hch].
Qed.

Lemma Scope_close_all_subtree_witness :
  exists o s', walk (Obfuscator_init false []) two_open_scopes = inr o /\
    Scope_close_all (store o) global_scope = inr s' /\ closed_at s' 2 = true.
Proof.
  destruct (walk (Obfuscator_init false []) two_open_scopes) as [e|o] eqn:E;
    [vm_compute in E; discriminate|].
  concrete_run E Eo.
  pose proof (Scope_close_all_subtree (store o) global_scope
                (tree_child_links _ (proj2 (tree_run _ _ _ _ E)))) as T.
  assert (Hi : nth_error (store o) global_scope <> None)
    by (rewrite <- Eo; discriminate).
  specialize (T Hi).
  destruct (Scope_close_all (store o) global_scope) as [e|s'] eqn:Ec.
  - rewrite <- Eo in Ec. vm_compute in Ec. discriminate.
  - exists o, s'. split; [reflexivity|]. split; [exact Ec|].
    destruct T as [_ [Hcl _]]. apply (Hcl 2). rewrite <- Eo.
    cbn [store]. unfold global_scope.
    eapply (descendant_child _ _ 1); [| reflexivity | left; reflexivity].
    eapply (descendant_child _ _ 0);
      [apply descendant_self | reflexivity | left; reflexivity].
Defined.

(* ------------------------------------------------------------------ *)
(** ** Every declared symbol is renamed where it is declared *)

Lemma strip_links s s' :
  map strip_remap s = map strip_remap s' -> map scope_links s = map scope_links s'.
Proof.
  intros H.
  assert (E : forall l, map scope_links l = map scope_links (map strip_remap l))
    by (intros l; rewrite map_map; reflexivity).
  rewrite (E s), (E s'), H. reflexivity.
Qed.

Lemma build_strip f ng st i co :
  map strip_remap (build_remap_symbols_fuel f ng st i co) = map strip_remap st.
Proof.
  apply (build_preserves (fun s => map strip_remap s = map strip_remap st)
           (fun _ => True) ng); [| auto | reflexivity | auto].
  intros s i' sc Hs _ Hi'. rewrite (strip_remap_scope _ _ _ _ Hi'). exact Hs.
Qed.

Lemma fold_keys_mono (pairs d : list (string * string)) k :
  In k (map fst d) ->
  In k (map fst (fold_left (fun d kv => dict_set String.eqb d (fst kv) (snd kv))
                           pairs d)).
Proof.
  revert d. induction pairs as [|kv pairs IH]; intros d H; simpl; [exact H|].
  apply IH, In_keys_dict_set. now right.
Qed.

Lemma In_keys_dict_get {V} (d : list (string * V)) k :
  In k (map fst d) -> exists v, dict_get String.eqb d k = Some v.
Proof.
  induction d as [|[k1 v1] d IH]; simpl; [tauto|].
  destruct (String.eqb k k1) eqn:E; [eauto|].
  intros [-> | H]; [rewrite String.eqb_refl in E; discriminate | auto].
Qed.

Lemma remap_scope_keys_mono ng s i sc j k :
  nth_error s i = Some sc ->
  (exists scj, nth_error s j = Some scj /\ In k (map fst (remapped_symbols scj))) ->
  exists scj, nth_error (remap_scope ng s i sc) j = Some scj /\
              In k (map fst (remapped_symbols scj)).
Proof.
  intros Hi [scj [Hj Hk]]. destruct (Nat.eq_dec i j) as [<- | Hne].
  - rewrite Hi in Hj. injection Hj as <-. eexists. split.
    + unfold remap_scope. eapply nth_error_store_set_same. exact Hi.
    + simpl. apply fold_keys_mono. exact Hk.
  - exists scj. split; [|exact Hk].
    unfold remap_scope. rewrite nth_error_store_set_other by exact Hne. exact Hj.
Qed.

Lemma build_keys_mono f ng st i co j k :
  (exists scj, nth_error st j = Some scj /\ In k (map fst (remapped_symbols scj))) ->
  exists scj, nth_error (build_remap_symbols_fuel f ng st i co) j = Some scj /\
              In k (map fst (remapped_symbols scj)).
Proof.
  intros H.
  apply (build_preserves (fun s => exists scj, nth_error s j = Some scj /\
                                    In k (map fst (remapped_symbols scj)))
           (fun _ => True) ng); [| auto | exact H | auto].
  intros s i' sc Hs _ Hi'. apply remap_scope_keys_mono; assumption.
Qed.

Lemma build_values_nonempty f ng st i co :
  (forall j sc k v, nth_error st j = Some sc ->
     In (k, v) (remapped_symbols sc) -> v <> EmptyString) ->
  forall j sc k v,
    nth_error (build_remap_symbols_fuel f ng st i co) j = Some sc ->
    In (k, v) (remapped_symbols sc) -> v <> EmptyString.
Proof.
  intros H.
  apply (build_preserves (fun s => forall j sc k v, nth_error s j = Some sc ->
           In (k, v) (remapped_symbols sc) -> v <> EmptyString)
           (fun _ => True) ng); [| auto | exact H | auto].
  intros s i' sc Hs _ Hi' j sc' k v Hj Hin.
  apply remap_scope_shape in Hj as [[-> [_ ->]] | [_ Hj]].
  - simpl in Hin. apply In_fold_dict_set in Hin as [Hin | Hin].
    + exact (Hs _ _ _ _ Hi' Hin).
    + unfold remap_pairs in Hin. apply in_combine_r in Hin.
      exact (take_names_nonempty _ _ _ Hin).
  - exact (Hs _ _ _ _ Hj Hin).
Qed.

(** [build_remap_symbols] reaches every scope below the one it starts
    from, and names there every declared symbol that is also counted. *)
Lemma build_visits f ng :
  NoDup (charset ng) -> charset ng <> [] ->
  forall st i co, child_links st -> nth_error st i <> None ->
  length st <= i + f ->
  forall j sc k, descendant st i j -> (j <> i \/ co = false) ->
    nth_error st j = Some sc -> In k (local_declared_symbols sc) ->
    In k (map fst (referenced_symbols sc)) ->
    exists scj, nth_error (build_remap_symbols_fuel f ng st i co) j = Some scj /\
                In k (map fst (remapped_symbols scj)).
Proof.
  intros Hnd Hne. induction f as [|f IHf];
    intros st i co Hl Hi Hlen j sc k D Hco Hj Hk Hr.
  { apply nth_error_Some in Hi. lia. }
  cbn [build_remap_symbols_fuel].
  destruct (nth_error st i) as [sci|] eqn:Ei; [|contradiction].
  assert (Hs1 : map strip_remap (if co then st else remap_scope ng st i sci) =
                map strip_remap st)
    by (destruct co; [reflexivity | apply strip_remap_scope; exact Ei]).
  assert (Hfold : forall cs st', incl cs (children sci) ->
    map strip_remap st' = map strip_remap st ->
    ((exists scj, nth_error st' j = Some scj /\ In k (map fst (remapped_symbols scj)))
     \/ exists c, In c cs /\ descendant st c j) ->
    exists scj, nth_error (fold_left (fun st c => build_remap_symbols_fuel f ng st c false)
                                     cs st') j = Some scj /\
                In k (map fst (remapped_symbols scj))).
  { induction cs as [|c cs IHcs]; intros st' Hincl Hs' Hor; simpl.
    - destruct Hor as [HK | [c0 [[] _]]]. exact HK.
    - apply IHcs; [intros x Hx; apply Hincl; now right | rewrite build_strip; exact Hs' |].
      destruct Hor as [HK | [c0 [[<- | Hc0] D0]]].
      + left. apply build_keys_mono, HK.
      + left. assert (Hcin : In c (children sci)) by (apply Hincl; now left).
        destruct (proj2 (Hl _ _ Ei) c Hcin) as [Hlt [csc [Ecs _]]].
        assert (Hlk : map scope_links st = map scope_links st')
          by exact (strip_links _ _ (eq_sym Hs')).
        destruct (links_nth _ _ _ _ Hlk Ecs) as [csc' [Ecs' _]].
        pose proof (strip_nth st' st j Hs') as Ej. rewrite Hj in Ej.
        destruct (nth_error st' j) as [scj|] eqn:Ej'; simpl in Ej; [|discriminate].
        assert (E' : strip_remap scj = strip_remap sc) by congruence.
        destruct (strip_fields _ _ E') as [_ [_ [_ [_ [Hrr Hll]]]]].
        apply (IHf st' c false (child_links_shape _ _ Hlk Hl)
                 ltac:(congruence)
                 ltac:(rewrite <- (length_map scope_links st'), <- Hlk, length_map; lia)
                 j scj k (desc_shape _ _ _ _ Hlk D0) (or_intror eq_refl) Ej');
          [rewrite Hll; exact Hk | rewrite Hrr; exact Hr].
      + right. exists c0. split; assumption. }
  apply Hfold; [intros x Hx; exact Hx | exact Hs1 |].
  destruct (desc_top _ _ _ D) as [-> | [sc0 [c [E0 [Hc D0]]]]].
  - left. destruct Hco as [Hco | ->]; [contradiction|].
    rewrite Ei in Hj. injection Hj as <-.
    pose proof (remap_pairs_keys ng st i sci k Hnd Hne Hk Hr) as Hkeys.
    destruct (fold_dict_set_get _ (remapped_symbols sci) _ Hkeys) as [v [Hv _]].
    eexists. split; [unfold remap_scope; eapply nth_error_store_set_same; exact Ei|].
    simpl. apply (dict_get_In String.eqb string_eqb_spec) in Hv.
    apply in_map_iff. exists (k, v). split; [reflexivity | exact Hv].
  - right. rewrite Ei in E0. injection E0 as <-. exists c. split; assumption.
Qed.

(** Every scope of a run's store lies below the global scope. *)
Lemma tree_descendant o j sc :
  tree_state o -> nth_error (store o) j = Some sc ->
  descendant (store o) global_scope j.
Proof.
  intros [_ [Ht _]]. revert sc.
  induction j as [j IH] using lt_wf_ind; intros sc Hj.
  destruct (Nat.eq_dec j global_scope) as [-> | Hne]; [constructor|].
  destruct (proj1 (Ht _ _ Hj) Hne) as [p [psc [_ [Hlt [Hp Hin]]]]].
  exact (descendant_child _ _ p psc j (IH p Hlt psc Hp) Hp Hin).
Qed.

(** Extra: after [finalize], every symbol declared in a scope other than
    the global one (and, with [obfuscate_globals], in the global one too)
    has a non-empty replacement name in that scope's remap table, and
    resolving it from that scope gives that name. *)
Theorem finalize_renames_declared (og : bool) (rk : list string)
  (evs : list Event) (o : Obfuscator) :
  prewalk_hook og rk evs = inr o ->
  forall j sc k, nth_error (store o) j = Some sc ->
    (j <> global_scope \/ og = true) ->
    In k (local_declared_symbols sc) ->
    exists v, v <> EmptyString /\
      dict_get String.eqb (remapped_symbols sc) k = Some v /\
      Scope_resolve (store o) j k = v.
Proof.
  intros H j sc k Hj Hog Hk.
  destruct (prewalk_hook_inv _ _ _ _ H) as [o1 [s1 [Hw [Hwf [Hc [Hst _]]]]]].
  destruct (close_global_shape _ _ Hwf Hc) as [Hlen1 Hsh1].
  destruct (tree_run _ _ _ _ Hw) as [_ Ht].
  pose proof Ht as [_ [Htr _]].
  unfold Scope_close in Hc.
  destruct (nth_error (store o1) global_scope) as [r0|] eqn:E0; [|discriminate].
  destruct (closed r0); [discriminate|]. injection Hc as Hc.
  assert (Hlk : map scope_links s1 = map scope_links (store o1)).
  { rewrite <- Hc. apply links_store_set. intros y Hy. rewrite E0 in Hy.
    injection Hy as <-. reflexivity. }
  assert (Hcl1 : child_links s1)
    by exact (child_links_shape _ _ (eq_sym Hlk) (tree_child_links _ Ht)).
  assert (Hincl1 : forall j sc, nth_error s1 j = Some sc ->
            incl (local_declared_symbols sc) (map fst (referenced_symbols sc))).
  { intros j' sc' Hj'. rewrite <- Hc in Hj'.
    apply nth_error_store_set_inv in Hj' as [[-> [-> _]] | [_ Hj']].
    - simpl. intros x Hx. apply merge_children_keys.
      destruct (Htr _ _ E0) as [_ [_ [_ Hinc]]]. exact (Hinc x Hx).
    - destruct (Htr _ _ Hj') as [_ [_ [_ Hinc]]]. exact Hinc. }
  set (ng := NameGenerator_init rk ID_CHARS) in Hst.
  unfold build_remap_symbols in Hst.
  assert (Hstrip : map strip_remap (store o) = map strip_remap s1)
    by (rewrite Hst; apply build_strip).
  pose proof (strip_nth _ _ j Hstrip) as Ej. rewrite Hj in Ej.
  destruct (nth_error s1 j) as [sc1|] eqn:Hj1; simpl in Ej; [|discriminate].
  assert (E' : strip_remap sc = strip_remap sc1) by congruence.
  destruct (strip_fields _ _ E') as [_ [_ [_ [_ [Hrr Hll]]]]].
  assert (Hk1 : In k (local_declared_symbols sc1)) by (rewrite <- Hll; exact Hk).
  destruct (links_nth _ _ _ _ Hlk Hj1) as [sco [Hjo _]].
  assert (D : descendant s1 global_scope j)
    by exact (desc_shape _ _ _ _ (eq_sym Hlk) (tree_descendant _ _ _ Ht Hjo)).
  assert (Hne0 : nth_error s1 global_scope <> None).
  { rewrite <- Hc. rewrite (nth_error_store_set_same _ _ _ _ E0). discriminate. }
  destruct (build_visits (length s1) ng ID_CHARS_NoDup ID_CHARS_nonempty s1
              global_scope (negb og) Hcl1 Hne0 ltac:(lia) j sc1 k D
              ltac:(destruct Hog as [Hog | ->]; [left; exact Hog | right; reflexivity])
              Hj1 Hk1 (Hincl1 _ _ Hj1 k Hk1)) as [scj [Hjj Hkey]].
  rewrite <- Hst, Hj in Hjj. injection Hjj as <-.
  destruct (In_keys_dict_get _ _ Hkey) as [v Hv].
  assert (Hnev : v <> EmptyString).
  { refine (build_values_nonempty (length s1) ng s1 global_scope (negb og) _ j sc k v
              _ _).
    - intros j' sc' k' v' Hj' Hin. rewrite (proj1 (Hsh1 _ _ Hj')) in Hin. destruct Hin.
    - rewrite <- Hst. exact Hj.
    - exact (dict_get_In String.eqb string_eqb_spec _ _ _ Hv). }
  exists v. split; [exact Hnev|]. split; [exact Hv|].
  unfold Scope_resolve.
  destruct (length (store o)) as [|f'] eqn:El.
  { apply length_zero_iff_nil in El. rewrite El in Hj. destruct j; discriminate. }
  cbn [resolve_loop]. rewrite Hj, Hv.
  destruct (String.eqb_spec v EmptyString); [contradiction | reflexivity].
Qed.

Lemma finalize_renames_declared_witness :
  exists o, prewalk_hook false [] declared_parameter = inr o /\
  Scope_resolve (store o) 1 "x" = "a"%string /\
  exists v, v <> EmptyString /\ Scope_resolve (store o) 1 "x" = v.
Proof.
  destruct (prewalk_hook false [] declared_parameter) as [e|o] eqn:E;
    [vm_compute in E; discriminate|].
  concrete_run E Eo.
  exists o. split; [reflexivity|]. split; [rewrite <- Eo; vm_compute; reflexivity|].
  assert (Hsc : exists sc, nth_error (store o) 1 = Some sc /\
                In "x"%string (local_declared_symbols sc))
    by (rewrite <- Eo; eexists; split; [reflexivity | left; reflexivity]).
  destruct Hsc as [sc [Hsc Hx]].
  destruct (finalize_renames_declared _ _ _ _ E 1 sc _ Hsc (or_introl (fun H : 1 = global_scope => O_S 0 (eq_sym H))) Hx)
    as [v [Hv [_ Hres]]].
  exists v. split; [exact Hv | exact Hres].
Defined.
